(** * API-key lifecycle and item store

    A shallow embedding of [app/auth/service.py], [app/auth/models.py],
    [app/auth/dependencies.py] and [app/items/service.py].

    The database session is modelled as the table it reads and writes: a list
    of rows in insertion order.  Statements that the source sends to the
    database ([select], [update], [flush] of a pending insert or update) are
    functions on that list; a constraint violation or an ambiguous
    [scalar_one_or_none] is an exception value.  Reads of the clock
    ([datetime.now(UTC)], [func.now()]), of the random source
    ([secrets.token_urlsafe], [bcrypt.gensalt], [uuid4]) are explicit
    arguments.  One session runs at a time, so [with_for_update(skip_locked)]
    selects exactly the rows its [where] clause selects. *)

From Stdlib Require Import String Ascii List ZArith Bool Arith Lia.
From Stdlib Require Import Sorting.Permutation Sorting.Sorted.
Import ListNotations.

Local Open Scope string_scope.
Local Open Scope list_scope.

(** ** Values shared by both services *)

(** A timezone-aware instant, counted from the epoch. *)
Definition datetime := Z.

(** The exceptions the modelled calls can raise: the two of SQLAlchemy, and
    the [ValueError] of [bcrypt]. *)
Inductive exception : Set :=
| IntegrityError
| MultipleResultsFound
| ValueError.

Inductive result (A : Type) : Type :=
| Ok (a : A)
| Raise (e : exception).
Arguments Ok {A} a.
Arguments Raise {A} e.

(** [Result.scalar_one_or_none()]: no row, the only row, or an exception. *)
Definition scalar_one_or_none {A : Type} (rows : list A) : result (option A) :=
  match rows with
  | [] => Ok None
  | [r] => Ok (Some r)
  | _ :: _ :: _ => Raise MultipleResultsFound
  end.

(** [ORDER BY col DESC] on a timestamp column.  Rows with equal timestamps
    come in an order the database is free to choose; this one keeps them in
    table order. *)
Fixpoint insert_desc {A : Type} (col : A -> datetime) (r : A) (rows : list A)
  : list A :=
  match rows with
  | [] => [r]
  | x :: rows' =>
      if (col x <=? col r)%Z then r :: rows else x :: insert_desc col r rows'
  end.

Definition order_by_desc {A : Type} (col : A -> datetime) (rows : list A)
  : list A :=
  fold_right (insert_desc col) [] rows.

(** [a] may stand before [b] in a listing ordered by [col], newest first. *)
Definition newest_first {A : Type} (col : A -> datetime) (a b : A) : Prop :=
  (col b <= col a)%Z.

(** [.offset(skip).limit(limit)] *)
Definition offset_limit {A : Type} (skip limit : nat) (rows : list A) : list A :=
  firstn limit (skipn skip rows).

(** PostgreSQL [LIKE]: [%] matches any run of characters, [_] any single
    character, and a backslash quotes the character after it. *)
Fixpoint like (pat : list ascii) : list ascii -> bool :=
  match pat with
  | [] => fun s => match s with [] => true | _ :: _ => false end
  | c :: p =>
      if Ascii.eqb c "%" then
        fix any (s : list ascii) : bool :=
          like p s || match s with [] => false | _ :: s' => any s' end
      else if Ascii.eqb c "_" then
        fun s => match s with [] => false | _ :: s' => like p s' end
      else if Ascii.eqb c "\" then
        match p with
        | [] => fun _ => false
        | d :: p' =>
            fun s => match s with
                     | [] => false
                     | x :: s' => Ascii.eqb d x && like p' s'
                     end
        end
      else
        fun s => match s with
                 | [] => false
                 | x :: s' => Ascii.eqb c x && like p s'
                 end
  end.

(** [column.startswith(other)]: SQLAlchemy renders it as
    [column LIKE other || '%'] and leaves [other] unescaped. *)
Definition startswith (column other : string) : bool :=
  like (list_ascii_of_string (other ++ "%")) (list_ascii_of_string column).

(** A search string in which [LIKE] reads every character literally. *)
Definition wildcard_free (other : string) : bool :=
  forallb
    (fun c => negb (Ascii.eqb c "%" || Ascii.eqb c "_" || Ascii.eqb c "\"))
    (list_ascii_of_string other).

(** A search string without the escape character of [LIKE]. *)
Definition escape_free (other : string) : bool :=
  forallb (fun c => negb (Ascii.eqb c "\")) (list_ascii_of_string other).

(** The part of [Settings] the two services read. *)
Record Settings : Set := mkSettings {
  api_key_min_length : nat;
  bcrypt_rounds : nat
}.

Definition default_settings : Settings :=
  {| api_key_min_length := 32; bcrypt_rounds := 12 |}.

(** The [bcrypt] package, as an interface: [gensalt rounds entropy] is the
    salt drawn for a work factor, [hashpw] and [checkpw] are what the
    package computes for a password it takes, one of at most 72 bytes. *)
Class Bcrypt : Type := {
  gensalt : nat -> string -> string;
  hashpw : string -> string -> string;
  checkpw : string -> string -> bool
}.

(** What the package guarantees: a password verifies against its own hash. *)
Definition bcrypt_sound (B : Bcrypt) : Prop :=
  forall (key salt : string), checkpw key (hashpw key salt) = true.

(** [len(s.encode())]: in UTF-8 a code point below 128 takes one byte and
    the others below 256 take two. *)
Fixpoint encoded_length (s : string) : nat :=
  match s with
  | EmptyString => 0
  | String c s' =>
      (if (nat_of_ascii c <? 128)%nat then 1 else 2) + encoded_length s'
  end.

(** [bcrypt.hashpw] and [bcrypt.checkpw] on encoded strings: both raise
    [ValueError] for a password of more than 72 bytes. *)
Definition bcrypt_hashpw {B : Bcrypt} (password salt : string) : result string :=
  if (72 <? encoded_length password)%nat then Raise ValueError
  else Ok (hashpw password salt).

Definition bcrypt_checkpw {B : Bcrypt} (password hashed : string) : result bool :=
  if (72 <? encoded_length password)%nat then Raise ValueError
  else Ok (checkpw password hashed).

(** ** app/auth *)

Module Auth.

(** [app/auth/models.py], class [APIKey]: one row of [api_keys]. *)
Record APIKey : Set := mkAPIKey {
  id : string;
  name : string;
  client_id : string;
  key_hash : string;
  key_prefix : string;
  is_active : bool;
  expires_at : option datetime;
  created_at : datetime;
  last_used_at : option datetime;
  revoked_at : option datetime
}.

(** The [is_expired] property, at the instant [now] that its
    [datetime.now(UTC)] reads. *)
Definition is_expired (now : datetime) (self : APIKey) : bool :=
  match expires_at self with
  | None => false
  | Some e => (now >? e)%Z
  end.

(** [app/auth/schemas.py] *)
Module APIKeyCreate.
Record t : Set := mk {
  name : string;
  client_id : string;
  expires_at : option datetime
}.
End APIKeyCreate.

Module APIKeyCreated.
Record t : Set := mk {
  id : string;
  name : string;
  client_id : string;
  key_prefix : string;
  key : string;
  expires_at : option datetime;
  created_at : datetime
}.
End APIKeyCreated.

(** The table [api_keys]. *)
Definition table : Set := list APIKey.

(** The constraints of [api_keys] that an insert is checked against: the
    primary key, the unique columns [key_hash] and [key_prefix] of the model,
    and the unique pair [(client_id, name)] that the initial migration
    declares ([uq_api_keys_client_id_name]). *)
Definition conflicts (r x : APIKey) : bool :=
  (id x =? id r) || (key_hash x =? key_hash r) || (key_prefix x =? key_prefix r)
  || ((client_id x =? client_id r) && (name x =? name r)).

(** [db.add(row); await db.flush()] *)
Definition insert (db : table) (r : APIKey) : result table :=
  if existsb (conflicts r) db then Raise IntegrityError else Ok (db ++ [r]).

(** The same constraints as a property of a stored table. *)
Definition constraints (db : table) : Prop :=
  NoDup (map id db) /\ NoDup (map key_hash db) /\ NoDup (map key_prefix db)
  /\ NoDup (map (fun r => (client_id r, name r)) db).

(** The relation the data model states between the two revocation columns. *)
Definition revocation_consistent (r : APIKey) : Prop :=
  revoked_at r <> None <-> is_active r = false.

(** Row-wise [UPDATE ... WHERE id = key_id]. *)
Definition update_where_id (key_id : string) (f : APIKey -> APIKey) (db : table) : table :=
  map (fun r => if id r =? key_id then f r else r) db.

Definition set_last_used_at (t : datetime) (r : APIKey) : APIKey :=
  {| id := id r; name := name r; client_id := client_id r;
     key_hash := key_hash r; key_prefix := key_prefix r;
     is_active := is_active r; expires_at := expires_at r;
     created_at := created_at r; last_used_at := Some t;
     revoked_at := revoked_at r |}.

Definition set_revoked (t : datetime) (r : APIKey) : APIKey :=
  {| id := id r; name := name r; client_id := client_id r;
     key_hash := key_hash r; key_prefix := key_prefix r;
     is_active := false; expires_at := expires_at r;
     created_at := created_at r; last_used_at := last_used_at r;
     revoked_at := Some t |}.

(** The values [get_api_key] gives back to the framework: the record, the
    [HTTPException] it raises itself, or an exception of a call it makes,
    which it does not catch (the application's generic handler answers
    that one with status 500). *)
Record HTTPException : Set := mkHTTPException {
  status_code : nat;
  detail : string;
  headers : list (string * string)
}.

Definition HTTP_401_UNAUTHORIZED : nat := 401.
Definition _INVALID_API_KEY_MESSAGE : string := "Invalid API key".

Inductive response (A : Type) : Type :=
| Return (a : A)
| RaiseHTTP (e : HTTPException)
| RaiseOther (e : exception).
Arguments Return {A} a.
Arguments RaiseHTTP {A} e.
Arguments RaiseOther {A} e.

Section Service.

Context {B : Bcrypt}.

(** [get_settings()] is cached: one value for the whole run. *)
Variable settings : Settings.

(** [app/auth/service.py], class [APIKeyService]. *)

Definition KEY_PREFIX : string := "sk_".
Definition KEY_LENGTH : nat := 32.
Definition MIN_PREFIX_LENGTH : nat := 4.

(** [generate_key]; [token] is what [secrets.token_urlsafe(KEY_LENGTH)]
    returned. *)
Definition generate_key (token : string) : string :=
  KEY_PREFIX ++ token.

(** [hash_key]; [entropy] is the randomness [bcrypt.gensalt] drew. *)
Definition hash_key (key entropy : string) : result string :=
  let salt := gensalt (bcrypt_rounds settings) entropy in
  bcrypt_hashpw key salt.

Definition verify_key (key key_hash : string) : result bool :=
  bcrypt_checkpw key key_hash.

(** [key[:12]] *)
Definition get_key_prefix (key : string) : string :=
  substring 0 12 key.

(** [create_key]; [uuid] is the [uuid4()] default of the primary key and
    [now] the [func.now()] default of [created_at]. *)
Definition create_key (db : table) (data : APIKeyCreate.t)
    (token entropy uuid : string) (now : datetime)
  : result (table * APIKeyCreated.t) :=
  let raw_key := generate_key token in
  match hash_key raw_key entropy with
  | Raise e => Raise e
  | Ok key_hash =>
      let key_prefix := get_key_prefix raw_key in
      let api_key :=
        {| id := uuid;
           name := APIKeyCreate.name data;
           client_id := APIKeyCreate.client_id data;
           key_hash := key_hash;
           key_prefix := key_prefix;
           is_active := true;
           expires_at := APIKeyCreate.expires_at data;
           created_at := now;
           last_used_at := None;
           revoked_at := None |} in
      match insert db api_key with
      | Raise e => Raise e
      | Ok db' =>
          Ok (db',
              {| APIKeyCreated.id := id api_key;
                 APIKeyCreated.name := name api_key;
                 APIKeyCreated.client_id := client_id api_key;
                 APIKeyCreated.key_prefix := Auth.key_prefix api_key;
                 APIKeyCreated.key := raw_key;
                 APIKeyCreated.expires_at := expires_at api_key;
                 APIKeyCreated.created_at := created_at api_key |})
      end
  end.

(** The locking select of [validate_key]. *)
Definition select_active_by_prefix (db : table) (prefix : string) : list APIKey :=
  filter (fun r => is_active r && (key_prefix r =? prefix)) db.

(** [validate_key]; [now_check] is the clock read by [is_expired] and
    [now_touch] the one stored in [last_used_at]. *)
Definition validate_key (db : table) (key : string) (now_check now_touch : datetime)
  : result (table * option APIKey) :=
  let prefix := get_key_prefix key in
  match scalar_one_or_none (select_active_by_prefix db prefix) with
  | Raise e => Raise e
  | Ok None => Ok (db, None)
  | Ok (Some api_key) =>
      match verify_key key (key_hash api_key) with
      | Raise e => Raise e
      | Ok verified =>
          if negb verified then Ok (db, None)
          else if is_expired now_check api_key then Ok (db, None)
          else
            let api_key' := set_last_used_at now_touch api_key in
            Ok (update_where_id (id api_key) (set_last_used_at now_touch) db,
                Some api_key')
      end
  end.

(** [get_key_by_id]; [key_id] is the text of a UUID as the column gives it
    back and [str(uuid4())] writes it. *)
Definition get_key_by_id (db : table) (key_id : string) : result (option APIKey) :=
  scalar_one_or_none (filter (fun r => id r =? key_id) db).

Definition get_key_by_prefix (db : table) (prefix : string) : result (option APIKey) :=
  if (String.length prefix <? MIN_PREFIX_LENGTH)%nat then Ok None
  else scalar_one_or_none (filter (fun r => startswith (key_prefix r) prefix) db).

(** [revoke_key]; [now] is the [datetime.now(UTC)] of the statement. *)
Definition revoke_key (db : table) (key_id : string) (now : datetime) : table * bool :=
  let rowcount := List.length (filter (fun r => id r =? key_id) db) in
  (update_where_id key_id (set_revoked now) db, (0 <? rowcount)%nat).

(** [list_keys]; [skip] and [limit] are counts, so not negative. *)
Definition list_keys (db : table) (skip limit : nat) : list APIKey * nat :=
  let total := List.length db in
  let keys := offset_limit skip limit (order_by_desc created_at db) in
  (keys, total).

(** [app/auth/dependencies.py] *)

(** [get_api_key]; the header is absent ([None]) or carries a string. *)
Definition get_api_key (api_key : option string) (db : table)
    (now_check now_touch : datetime) : response (table * APIKey) :=
  match api_key with
  | None | Some "" =>
      RaiseHTTP {| status_code := HTTP_401_UNAUTHORIZED;
                   detail := _INVALID_API_KEY_MESSAGE;
                   headers := [("WWW-Authenticate", "ApiKey")] |}
  | Some api_key =>
      if (String.length api_key <? api_key_min_length settings)%nat then
        RaiseHTTP {| status_code := HTTP_401_UNAUTHORIZED;
                     detail := _INVALID_API_KEY_MESSAGE;
                     headers := [("WWW-Authenticate", "ApiKey")] |}
      else
        match validate_key db api_key now_check now_touch with
        | Raise e => RaiseOther e
        | Ok (_, None) =>
            RaiseHTTP {| status_code := HTTP_401_UNAUTHORIZED;
                         detail := _INVALID_API_KEY_MESSAGE;
                         headers := [("WWW-Authenticate", "ApiKey")] |}
        | Ok (db', Some key_record) => Return (db', key_record)
        end
  end.

(** The reasons for which a presented key is turned away, as the log
    messages of [validate_key] and the comments of [get_api_key] name them;
    a revoked key is inactive, so the locking select does not find it. *)
Inductive rejection (db : table) (now_check : datetime) : option string -> Prop :=
| KeyAbsent : rejection db now_check None
| KeyEmpty : rejection db now_check (Some "")
| KeyTooShort (key : string) :
    String.length key < api_key_min_length settings ->
    rejection db now_check (Some key)
| KeyNotFoundOrInactive (key : string) :
    select_active_by_prefix db (get_key_prefix key) = [] ->
    rejection db now_check (Some key)
| KeyHashMismatch (key : string) (r : APIKey) :
    select_active_by_prefix db (get_key_prefix key) = [r] ->
    verify_key key (key_hash r) = Ok false ->
    rejection db now_check (Some key)
| KeyExpired (key : string) (r : APIKey) :
    select_active_by_prefix db (get_key_prefix key) = [r] ->
    verify_key key (key_hash r) = Ok true ->
    is_expired now_check r = true ->
    rejection db now_check (Some key).

(** A core operation with the values its effects read. *)
Inductive op : Set :=
| CreateKey (data : APIKeyCreate.t) (token entropy uuid : string) (now : datetime)
| ValidateKey (key : string) (now_check now_touch : datetime)
| RevokeKey (key_id : string) (now : datetime).

(** The table after one operation; an operation that raises leaves it as it
    was. *)
Definition step (db : table) (o : op) : table :=
  match o with
  | CreateKey data token entropy uuid now =>
      match create_key db data token entropy uuid now with
      | Ok (db', _) => db'
      | Raise _ => db
      end
  | ValidateKey key now_check now_touch =>
      match validate_key db key now_check now_touch with
      | Ok (db', _) => db'
      | Raise _ => db
      end
  | RevokeKey key_id now => fst (revoke_key db key_id now)
  end.

Definition run (ops : list op) (db : table) : table :=
  fold_left step ops db.

(** [key] is a plaintext of row [r]: it carries the row's prefix and
    verifies against the row's hash. *)
Definition plaintext_of (key : string) (r : APIKey) : Prop :=
  get_key_prefix key = key_prefix r /\ verify_key key (key_hash r) = Ok true.

(** The instant of the last [RevokeKey] on [key_id] in [ops], if any. *)
Fixpoint last_revoke (ops : list op) (key_id : string) : option datetime :=
  match ops with
  | [] => None
  | o :: ops' =>
      match last_revoke ops' key_id with
      | Some t => Some t
      | None =>
          match o with
          | RevokeKey i t => if i =? key_id then Some t else None
          | _ => None
          end
      end
  end.

End Service.

End Auth.

(** ** app/cli/keys.py *)

Module Cli.

Import Auth.

(** What the [revoke] command tells the operator, with the exit code each
    message goes with. *)
Inductive revoke_report : Set :=
| NoKeyFound
| AlreadyRevoked (name : string)
| Cancelled
| Revoked (name key_prefix : string)
| RevokeFailed
| DatabaseError (e : exception).

Definition exit_code (r : revoke_report) : nat :=
  match r with
  | AlreadyRevoked _ | Revoked _ _ | Cancelled => 0
  | NoKeyFound | RevokeFailed | DatabaseError _ => 1
  end.

(** The body [_revoke] of the [revoke] command; [confirm] is the operator's
    answer to [typer.confirm], read only when [force] is not set, and [now]
    the clock of [revoke_key]. *)
Definition _revoke (db : table) (prefix : string) (force confirm : bool)
    (now : datetime) : table * revoke_report :=
  match get_key_by_prefix db prefix with
  | Raise e => (db, DatabaseError e)
  | Ok by_prefix =>
      let found :=
        match by_prefix with
        | Some key => Ok (Some key)
        | None => get_key_by_id db prefix
        end in
      match found with
      | Raise e => (db, DatabaseError e)
      | Ok None => (db, NoKeyFound)
      | Ok (Some key) =>
          if negb (is_active key) then (db, AlreadyRevoked (name key))
          else if negb force && negb confirm then (db, Cancelled)
          else
            let (db', success) := revoke_key db (id key) now in
            if success then (db', Revoked (name key) (key_prefix key))
            else (db', RevokeFailed)
      end
  end.

End Cli.

(** ** app/items *)

Module Items.

(** [app/items/models.py], class [Item] with [TimestampMixin]: one row of
    [items]. *)
Record Item : Set := mkItem {
  id : string;
  name : string;
  description : option string;
  created_at : datetime;
  updated_at : datetime
}.

(** [data.model_dump(exclude_unset=True)] of an [ItemUpdate]: a field is
    missing from the dictionary ([None]) or present with its value, which
    for both fields may be Python's [None]. *)
Module ItemUpdate.
Record t : Set := mk {
  name : option (option string);
  description : option (option string)
}.
End ItemUpdate.

(** A validated [ItemCreate]. *)
Module ItemCreate.
Record t : Set := mk {
  name : string;
  description : option string
}.
End ItemCreate.

Definition table : Set := list Item.

(** [ItemService.create]; [uuid] is the [uuid4()] default of the primary
    key, [db_now] the [func.now()] default of [created_at] and [py_now] the
    [_utc_now()] default of [updated_at]. *)
Definition create (db : table) (data : ItemCreate.t) (uuid : string)
    (db_now py_now : datetime) : result (table * Item) :=
  let item :=
    {| id := uuid;
       name := ItemCreate.name data;
       description := ItemCreate.description data;
       created_at := db_now;
       updated_at := py_now |} in
  if existsb (fun r => id r =? id item) db then Raise IntegrityError
  else Ok (db ++ [item], item).

(** [ItemService.get_all] *)
Definition get_all (db : table) (skip limit : nat) : list Item * nat :=
  let total := List.length db in
  let items := offset_limit skip limit (order_by_desc created_at db) in
  (items, total).

(** [ItemService.delete] *)
Definition delete (db : table) (item_id : string) : table * bool :=
  let rowcount := List.length (filter (fun r => id r =? item_id) db) in
  (filter (fun r => negb (id r =? item_id)) db, (0 <? rowcount)%nat).

Definition _UPDATABLE_FIELDS : list string := ["name"; "description"].

Definition option_eqb (a b : option string) : bool :=
  match a, b with
  | None, None => true
  | Some x, Some y => x =? y
  | _, _ => false
  end.

Definition get_by_id (db : table) (item_id : string) : result (option Item) :=
  scalar_one_or_none (filter (fun r => id r =? item_id) db).

(** [await db.flush(); await db.refresh(item)] for a loaded [item] whose
    attributes [name] and [description] now hold [name'] and [description'].
    Columns whose value did not change are not written; when one is written
    the [UPDATE] also sets [updated_at] ([onupdate=_utc_now]), and a [NULL]
    [name] violates the column's [nullable=False]. *)
Definition flush_refresh (db : table) (item : Item)
    (name' description' : option string) (now : datetime)
  : result (table * Item) :=
  let name_changed := negb (option_eqb name' (Some (name item))) in
  let description_changed := negb (option_eqb description' (description item)) in
  if name_changed || description_changed then
    match name' with
    | None => Raise IntegrityError
    | Some n =>
        let item' :=
          {| id := id item; name := n; description := description';
             created_at := created_at item; updated_at := now |} in
        Ok (map (fun r => if id r =? id item then item' else r) db, item')
    end
  else Ok (db, item).

(** [ItemService.update]; [now] is the clock read by [onupdate]. *)
Definition update (db : table) (item_id : string) (data : ItemUpdate.t)
    (now : datetime) : result (table * option Item) :=
  match get_by_id db item_id with
  | Raise e => Raise e
  | Ok None => Ok (db, None)
  | Ok (Some item) =>
      let name' :=
        match ItemUpdate.name data with
        | Some v =>
            if existsb (String.eqb "name") _UPDATABLE_FIELDS then v
            else Some (name item)
        | None => Some (name item)
        end in
      let description' :=
        match ItemUpdate.description data with
        | Some v =>
            if existsb (String.eqb "description") _UPDATABLE_FIELDS then v
            else description item
        | None => description item
        end in
      match flush_refresh db item name' description' now with
      | Raise e => Raise e
      | Ok (db', item') => Ok (db', Some item')
      end
  end.

End Items.

(** ** app/items/schemas.py and app/auth/schemas.py

    Strings are sequences of code points below 256. *)

Module Schemas.

(** [str.isspace] on one character. *)
Definition isspace (c : ascii) : bool :=
  let n := nat_of_ascii c in
  ((9 <=? n) && (n <=? 13) || (28 <=? n) && (n <=? 32)
   || (n =? 133) || (n =? 160))%nat.

Fixpoint lstrip (s : string) : string :=
  match s with
  | EmptyString => EmptyString
  | String c s' => if isspace c then lstrip s' else s
  end.

Fixpoint rstrip (s : string) : string :=
  match s with
  | EmptyString => EmptyString
  | String c s' =>
      match rstrip s' with
      | EmptyString => if isspace c then EmptyString else String c EmptyString
      | String d t => String c (String d t)
      end
  end.

(** [v.strip()] *)
Definition strip (v : string) : string := rstrip (lstrip v).

Inductive validation_error : Set :=
| string_too_short
| string_too_long
| value_error (msg : string).

(** The validator [strip_whitespace] of [ItemCreate] and [APIKeyCreate];
    [msg] is the message of the class. *)
Definition strip_whitespace (msg v : string) : string + validation_error :=
  let stripped := strip v in
  match stripped with
  | EmptyString => inr (value_error msg)
  | String _ _ => inl stripped
  end.

(** A field [str = Field(..., min_length=1, max_length=255)] with the
    validator [strip_whitespace] in mode [after]: the length bounds are
    checked on the value as sent, the validator runs on what passed. *)
Definition validate_required (msg v : string) : string + validation_error :=
  if (String.length v <? 1)%nat then inr string_too_short
  else if (255 <? String.length v)%nat then inr string_too_long
  else strip_whitespace msg v.

(** [ItemCreate.name] *)
Definition validate_item_name : string -> string + validation_error :=
  validate_required "Name cannot be empty or whitespace-only".

(** [APIKeyCreate.name] and [APIKeyCreate.client_id] *)
Definition validate_key_field : string -> string + validation_error :=
  validate_required "Value cannot be empty or whitespace-only".

(** [ItemUpdate.name]: [None] passes both the field and the validator. *)
Definition validate_update_name (v : option string)
  : option string + validation_error :=
  match v with
  | None => inl None
  | Some s =>
      match validate_item_name s with
      | inl stripped => inl (Some stripped)
      | inr e => inr e
      end
  end.

End Schemas.

(** ** app/config/settings.py *)

Module Config.

(** [str.startswith] *)
Definition py_startswith (s pre : string) : bool := String.prefix pre s.

(** The property [async_database_url] on the rendered [database_url];
    [url.replace(old, new, 1)] is applied to a string that starts with
    [old], so it rewrites that start. *)
Definition async_database_url (url : string) : string :=
  if py_startswith url "postgresql://" then
    "postgresql+psycopg://" ++ substring 13 (String.length url - 13) url
  else if py_startswith url "postgres://" then
    "postgresql+psycopg://" ++ substring 11 (String.length url - 11) url
  else url.

End Config.

(** ** app/core/middleware.py *)

Module Middleware.

(** The class [[a-zA-Z0-9_-]]. *)
Definition id_char (c : ascii) : bool :=
  let n := nat_of_ascii c in
  ((97 <=? n) && (n <=? 122) || (65 <=? n) && (n <=? 90)
   || (48 <=? n) && (n <=? 57) || (n =? 95) || (n =? 45))%nat.

(** The longest run of [id_char] at the start of [s], and what follows. *)
Fixpoint span_id (s : string) : string * string :=
  match s with
  | EmptyString => (EmptyString, EmptyString)
  | String c s' =>
      if id_char c then let (run, rest) := span_id s' in (String c run, rest)
      else (EmptyString, s)
  end.

(** [_CORRELATION_ID_PATTERN.match(s)] for [^[a-zA-Z0-9_-]{1,64}$]; in
    Python [$] matches at the end of the string and also just before a
    newline that ends it. *)
Definition correlation_id_matches (s : string) : bool :=
  let (run, rest) := span_id s in
  ((1 <=? String.length run) && (String.length run <=? 64))%nat
  && ((rest =? "") || (rest =? String "010" EmptyString)).

(** The id [CorrelationIdMiddleware.dispatch] stores in [correlation_id_var]
    and in the response header; [client] is the request's
    [X-Correlation-ID] if any and [uuid] the [str(uuid4())] it would draw. *)
Definition correlation_id (client : option string) (uuid : string) : string :=
  match client with
  | None => uuid
  | Some "" => uuid
  | Some client_correlation_id =>
      if correlation_id_matches client_correlation_id
      then client_correlation_id else uuid
  end.

End Middleware.

(** ** An executable [bcrypt]

    A stand-in for the package on which the model can be run: the salt
    records the work factor, the hash is the salt followed by the password,
    and a password verifies against every hash that ends with it. *)

Fixpoint ends_with (h key : string) : bool :=
  (h =? key)
  || match h with
     | EmptyString => false
     | String _ h' => ends_with h' key
     end.

Definition plain_bcrypt : Bcrypt :=
  {| gensalt := fun rounds entropy =>
       ((if (rounds <? 10)%nat then "$2b$0" else "$2b$1") ++ entropy ++ "$")%string;
     hashpw := fun key salt => (salt ++ key)%string;
     checkpw := fun key h => ends_with h key |}.

(** ** Sample data

    Two keys of one client, as [create_key] stores them, and one item. *)

Module Sample.

Import Auth.

Definition token1 : string := "aK3x9QmT2vB7nR5pL8wZ1cY4dF6gH0jU-sE_iOqWtXy".
Definition token2 : string := "aP7m2LkD9sV4bN6qR1tY8uW3eC5fG0hJ-xI_oZaMnBv".
Definition uuid1 : string := "1b4e28ba-2fa1-41d2-883f-0016d3cca427".
Definition uuid2 : string := "6fa459ea-ee8a-4ca4-894e-db77e160355e".

Definition data1 : APIKeyCreate.t :=
  {| APIKeyCreate.name := "ci";
     APIKeyCreate.client_id := "acme";
     APIKeyCreate.expires_at := Some 500%Z |}.

Definition data2 : APIKeyCreate.t :=
  {| APIKeyCreate.name := "deploy";
     APIKeyCreate.client_id := "acme";
     APIKeyCreate.expires_at := None |}.

Definition key1 : string := generate_key token1.
Definition key2 : string := generate_key token2.

Definition row1 : APIKey :=
  {| id := uuid1; name := "ci"; client_id := "acme";
     key_hash := @hashpw plain_bcrypt key1 (@gensalt plain_bcrypt 12 "c2FsdDE");
     key_prefix := "sk_aK3x9QmT2";
     is_active := true; expires_at := Some 500%Z; created_at := 100%Z;
     last_used_at := None; revoked_at := None |}.

Definition row2 : APIKey :=
  {| id := uuid2; name := "deploy"; client_id := "acme";
     key_hash := @hashpw plain_bcrypt key2 (@gensalt plain_bcrypt 12 "c2FsdDI");
     key_prefix := "sk_aP7m2LkD9";
     is_active := true; expires_at := None; created_at := 110%Z;
     last_used_at := None; revoked_at := None |}.

(** Two keys of 76 characters: the first begins like [key1], the second
    like no stored key. *)
Definition overlong_on_stored_prefix : string :=
  key1 ++ "AAAAAAAAAAAAAAAAAAAAAAAAAAAAAA".
Definition overlong_on_unknown_prefix : string :=
  "sk_Zq8w7E6r5T4y3U2i1O0pLkJhGfDsAmNbVcXz9Q8w7E6" ++ "AAAAAAAAAAAAAAAAAAAAAAAAAAAAAA".

Definition issue : list op :=
  [CreateKey data1 token1 "c2FsdDE" uuid1 100%Z;
   CreateKey data2 token2 "c2FsdDI" uuid2 110%Z].

Definition widget : Items.Item :=
  {| Items.id := "0c9f6a1e-5d0b-4b7e-9a57-3f2f9b1c7d10";
     Items.name := "Widget";
     Items.description := Some "A thing";
     Items.created_at := 100%Z;
     Items.updated_at := 100%Z |}.

Definition rename_widget : Items.ItemUpdate.t :=
  {| Items.ItemUpdate.name := Some (Some "Widget2");
     Items.ItemUpdate.description := None |}.

End Sample.

(** * Tables with a unique column *)

Section UniqueColumn.

Context {A K : Type} (col : A -> K).

Lemma unique_column_injective (l : list A) (a b : A) :
  NoDup (map col l) -> In a l -> In b l -> col a = col b -> a = b.
Proof.
  induction l as [|x l IH]; intros Hnd Ha Hb Hcol; [contradiction|].
  simpl in Hnd. inversion Hnd as [|k ks Hx Hnd']; subst.
  destruct Ha as [->|Ha], Hb as [->|Hb]; auto.
  - exfalso. apply Hx. rewrite Hcol. now apply in_map.
  - exfalso. apply Hx. rewrite <- Hcol. now apply in_map.
Qed.

Lemma unique_column_snoc (l : list A) (a : A) :
  NoDup (map col l) -> ~ In (col a) (map col l) -> NoDup (map col (l ++ [a])).
Proof.
  induction l as [|x l IH]; simpl; intros Hnd Hnot.
  - constructor; [tauto | constructor].
  - inversion Hnd as [|k ks Hx Hnd']; subst. constructor.
    + rewrite map_app, in_app_iff. simpl. intros [Hin|[Heq|[]]]; [tauto|].
      apply Hnot. now left.
    + apply IH; [assumption|]. intros Hin. apply Hnot. now right.
Qed.

Lemma filter_unique_column (p : A -> bool) (l : list A) (a : A) :
  NoDup (map col l) -> In a l -> p a = true ->
  (forall x, p x = true -> col x = col a) ->
  filter p l = [a].
Proof.
  intros Hnd Hin Hpa Hp.
  induction l as [|x l IH]; [contradiction|].
  simpl in Hnd. inversion Hnd as [|k ks Hx Hnd']; subst. simpl.
  assert (Hrest : ~ In (col x) (map col l) -> forall y, In y l -> col y <> col x).
  { intros Hn y Hy Heq. apply Hn. rewrite <- Heq. now apply in_map. }
  destruct Hin as [->|Hin].
  - rewrite Hpa. f_equal.
    destruct (filter p l) as [|y l'] eqn:E; [reflexivity|exfalso].
    assert (Hy : In y (filter p l)) by (rewrite E; now left).
    apply filter_In in Hy as [Hy Hpy]. now apply (Hrest Hx y Hy), Hp.
  - destruct (p x) eqn:Hpx; [exfalso|now apply IH].
    apply (Hrest Hx a Hin). symmetry. now apply Hp.
Qed.

End UniqueColumn.

(** * Properties of the key service *)

Section AuthFacts.

Import Auth.

Context {B : Bcrypt}.
Variable settings : Settings.

(** ** Slicing *)

Lemma substring_whole (s : string) :
  forall n : nat, String.length s <= n -> substring 0 n s = s.
Proof.
  induction s as [|c s IH]; intros [|n] Hlen; simpl in *; try reflexivity; try lia.
  f_equal. apply IH. lia.
Qed.

Lemma get_key_prefix_length (key : string) :
  String.length (get_key_prefix key) = Nat.min 12 (String.length key).
Proof.
  unfold get_key_prefix. generalize 12.
  induction key as [|c key IH]; intros [|n]; simpl; try reflexivity.
  now rewrite IH.
Qed.

(** ** Rows selected by prefix *)

Lemma select_active_by_prefix_In (db : table) (prefix : string) (r : APIKey) :
  In r (select_active_by_prefix db prefix) <->
  In r db /\ is_active r = true /\ key_prefix r = prefix.
Proof.
  unfold select_active_by_prefix. rewrite filter_In, andb_true_iff, String.eqb_eq.
  tauto.
Qed.

Lemma select_absent_prefix (db : table) (prefix : string) :
  ~ In prefix (map key_prefix db) -> select_active_by_prefix db prefix = [].
Proof.
  intros Hnot. destruct (select_active_by_prefix db prefix) as [|r l] eqn:E; [reflexivity|].
  exfalso. apply Hnot.
  assert (Hin : In r (select_active_by_prefix db prefix)) by (rewrite E; now left).
  apply select_active_by_prefix_In in Hin as (Hin & _ & <-).
  now apply in_map.
Qed.

Lemma select_unique_prefix (db : table) (r : APIKey) :
  NoDup (map key_prefix db) -> In r db -> is_active r = true ->
  select_active_by_prefix db (key_prefix r) = [r].
Proof.
  induction db as [|x db IH]; intros Hnd Hin Hact; [contradiction|].
  simpl in Hnd. inversion Hnd as [|p ps Hx Hnd']; subst.
  destruct Hin as [->|Hin].
  - unfold select_active_by_prefix. simpl.
    rewrite Hact, String.eqb_refl. simpl. f_equal.
    now apply select_absent_prefix.
  - unfold select_active_by_prefix. simpl.
    destruct (key_prefix x =? key_prefix r) eqn:E.
    + apply String.eqb_eq in E. exfalso. apply Hx. rewrite E. now apply in_map.
    + rewrite andb_false_r. now apply IH.
Qed.

Lemma select_at_most_one (db : table) (prefix : string) :
  NoDup (map key_prefix db) ->
  select_active_by_prefix db prefix = [] \/
  exists r, select_active_by_prefix db prefix = [r].
Proof.
  intros Hnd.
  destruct (select_active_by_prefix db prefix) as [|r l] eqn:E; [now left|right].
  assert (Hin : In r (select_active_by_prefix db prefix)) by (rewrite E; now left).
  apply select_active_by_prefix_In in Hin as (Hin & Hact & Hp).
  subst prefix. rewrite select_unique_prefix in E by assumption.
  exists r. now rewrite E.
Qed.

(** ** What [validate_key] returns *)

Lemma validate_key_accepts (db db' : table) (key : string) (t1 t2 : datetime)
    (r : APIKey) :
  validate_key db key t1 t2 = Ok (db', Some r) ->
  exists r0,
    select_active_by_prefix db (get_key_prefix key) = [r0]
    /\ verify_key key (key_hash r0) = Ok true
    /\ is_expired t1 r0 = false
    /\ r = set_last_used_at t2 r0
    /\ db' = update_where_id (id r0) (set_last_used_at t2) db.
Proof.
  unfold validate_key.
  destruct (select_active_by_prefix db (get_key_prefix key)) as [|r0 [|r1 l]];
    simpl; try discriminate.
  destruct (verify_key key (key_hash r0)) as [[|]|e] eqn:Hver; simpl;
    try discriminate.
  destruct (is_expired t1 r0) eqn:Hexp; try discriminate.
  intros H. injection H as <- <-. exists r0. repeat split; assumption.
Qed.

Lemma validate_key_rejects_keeps_table (db db' : table) (key : string)
    (t1 t2 : datetime) :
  validate_key db key t1 t2 = Ok (db', None) -> db' = db.
Proof.
  unfold validate_key.
  destruct (select_active_by_prefix db (get_key_prefix key)) as [|r0 [|r1 l]];
    simpl; try discriminate.
  - intros H. now injection H.
  - destruct (verify_key key (key_hash r0)) as [[|]|e]; simpl; [| |discriminate].
    + destruct (is_expired t1 r0); [|discriminate]. intros H. now injection H.
    + intros H. now injection H.
Qed.

Lemma validate_key_on_row (db : table) (key : string) (t1 t2 : datetime)
    (r : APIKey) :
  select_active_by_prefix db (get_key_prefix key) = [r] ->
  verify_key key (key_hash r) = Ok true ->
  validate_key db key t1 t2 =
  if is_expired t1 r then Ok (db, None)
  else Ok (update_where_id (id r) (set_last_used_at t2) db,
           Some (set_last_used_at t2 r)).
Proof.
  intros Hsel Hver. unfold validate_key. rewrite Hsel. simpl. now rewrite Hver.
Qed.

Lemma insert_no_prefix (db db' : table) (r : APIKey) :
  insert db r = Ok db' ->
  db' = db ++ [r] /\ ~ In (key_prefix r) (map key_prefix db).
Proof.
  unfold insert. destruct (existsb (conflicts r) db) eqn:Hex; [discriminate|].
  intros H. injection H as <-. split; [reflexivity|].
  intros Hin. apply in_map_iff in Hin as (x & Hp & Hin).
  assert (Hc : existsb (conflicts r) db = true).
  { apply existsb_exists. exists x. split; [assumption|].
    unfold conflicts. rewrite Hp, String.eqb_refl. now rewrite !orb_true_r. }
  congruence.
Qed.

(** ** The schema constraints are kept by every operation *)

Lemma update_where_id_column {K : Type} (col : APIKey -> K) (key_id : string)
    (f : APIKey -> APIKey) (db : table) :
  (forall r, col (f r) = col r) ->
  map col (update_where_id key_id f db) = map col db.
Proof.
  intros Hf. unfold update_where_id. rewrite map_map. apply map_ext.
  intros r. now destruct (id r =? key_id).
Qed.

Lemma update_where_id_constraints (key_id : string) (f : APIKey -> APIKey)
    (db : table) :
  (forall r, id (f r) = id r) -> (forall r, key_hash (f r) = key_hash r) ->
  (forall r, key_prefix (f r) = key_prefix r) ->
  (forall r, client_id (f r) = client_id r) -> (forall r, name (f r) = name r) ->
  constraints db -> constraints (update_where_id key_id f db).
Proof.
  intros Hid Hh Hp Hc Hn (H1 & H2 & H3 & H4). unfold constraints.
  rewrite !update_where_id_column; auto.
  intros r. now rewrite Hc, Hn.
Qed.

Lemma insert_constraints (db db' : table) (r : APIKey) :
  constraints db -> insert db r = Ok db' -> constraints db'.
Proof.
  intros (H1 & H2 & H3 & H4). unfold insert.
  destruct (existsb (conflicts r) db) eqn:Hex; [discriminate|].
  intros H. injection H as <-.
  assert (Hno : forall x, In x db -> conflicts r x = false).
  { intros x Hx. destruct (conflicts r x) eqn:E; [|reflexivity].
    assert (existsb (conflicts r) db = true) by (apply existsb_exists; eauto).
    congruence. }
  repeat split; apply unique_column_snoc; try assumption;
    intros Hin; apply in_map_iff in Hin as (x & Hcol & Hx);
    specialize (Hno x Hx); unfold conflicts in Hno;
    apply orb_false_elim in Hno as [Hno Hpair];
    apply orb_false_elim in Hno as [Hno Hprefix];
    apply orb_false_elim in Hno as [Hid Hhash].
  - rewrite Hcol, String.eqb_refl in Hid. discriminate.
  - rewrite Hcol, String.eqb_refl in Hhash. discriminate.
  - rewrite Hcol, String.eqb_refl in Hprefix. discriminate.
  - injection Hcol as Hc Hn. rewrite Hc, Hn, !String.eqb_refl in Hpair.
    discriminate.
Qed.

Lemma step_constraints (db : table) (o : op) :
  constraints db -> constraints (step settings db o).
Proof.
  intros Hc. destruct o as [data token entropy uuid now|key t1 t2|key_id now]; simpl.
  - unfold create_key.
    destruct (hash_key settings (generate_key token) entropy)
      as [hashed|raised]; [|assumption].
    match goal with
    | |- context [insert db ?k] => destruct (insert db k) as [db'|e] eqn:Hins
    end; [|assumption].
    eapply insert_constraints; eassumption.
  - destruct (validate_key db key t1 t2) as [[db' [r|]]|e] eqn:Hv; try assumption.
    + apply validate_key_accepts in Hv as (r0 & _ & _ & _ & _ & ->).
      now apply update_where_id_constraints.
    + apply validate_key_rejects_keeps_table in Hv. now subst.
  - now apply update_where_id_constraints.
Qed.

Lemma empty_constraints : constraints [].
Proof. repeat split; constructor. Qed.

Lemma run_constraints (ops : list op) (db : table) :
  constraints db -> constraints (run settings ops db).
Proof.
  revert db. induction ops as [|o ops IH]; intros db Hc; simpl; [assumption|].
  apply IH. now apply step_constraints.
Qed.

Lemma verify_key_within (key key_hash : string) :
  encoded_length key <= 72 -> verify_key key key_hash = Ok (checkpw key key_hash).
Proof.
  intros Hlen. unfold verify_key, bcrypt_checkpw.
  apply Nat.ltb_ge in Hlen. now rewrite Hlen.
Qed.

Lemma verify_key_beyond (key key_hash : string) :
  72 < encoded_length key -> verify_key key key_hash = Raise ValueError.
Proof.
  intros Hlen. unfold verify_key, bcrypt_checkpw.
  apply Nat.ltb_lt in Hlen. now rewrite Hlen.
Qed.

Lemma verify_key_answers (key key_hash : string) (b : bool) :
  verify_key key key_hash = Ok b ->
  encoded_length key <= 72 /\ checkpw key key_hash = b.
Proof.
  unfold verify_key, bcrypt_checkpw.
  destruct (72 <? encoded_length key)%nat eqn:Hlen; [discriminate|].
  apply Nat.ltb_ge in Hlen. intros H. injection H as <-. now split.
Qed.

Lemma hash_key_answers (key entropy hashed : string) :
  hash_key settings key entropy = Ok hashed ->
  encoded_length key <= 72
  /\ hashed = hashpw key (gensalt (bcrypt_rounds settings) entropy).
Proof.
  unfold hash_key, bcrypt_hashpw.
  destruct (72 <? encoded_length key)%nat eqn:Hlen; [discriminate|].
  apply Nat.ltb_ge in Hlen. intros H. injection H as <-. now split.
Qed.

Lemma validate_key_total (db : table) (key : string) (t1 t2 : datetime) :
  constraints db -> encoded_length key <= 72 ->
  validate_key db key t1 t2 = Ok (db, None)
  \/ exists r, validate_key db key t1 t2
               = Ok (update_where_id (id r) (set_last_used_at t2) db,
                     Some (set_last_used_at t2 r)).
Proof.
  intros (_ & _ & Hp & _) Hlen. unfold validate_key.
  destruct (select_at_most_one db (get_key_prefix key) Hp) as [->|(r & ->)]; simpl.
  - now left.
  - rewrite (verify_key_within _ _ Hlen).
    destruct (checkpw key (key_hash r)); simpl; [|now left].
    destruct (is_expired t1 r); [now left|right]. now exists r.
Qed.

(** C10: a candidate shorter than 12 characters is its own prefix, so the
    lookup of [validate_key] is keyed by the whole candidate and a record it
    returns carries the candidate as its stored prefix. *)
Theorem get_key_prefix_short (s : string) :
  String.length s < 12 ->
  get_key_prefix s = s
  /\ (forall db : table,
        select_active_by_prefix db (get_key_prefix s) = select_active_by_prefix db s)
  /\ (forall (db db' : table) (t1 t2 : datetime) (r : APIKey),
        validate_key db s t1 t2 = Ok (db', Some r) -> key_prefix r = s).
Proof.
  intros Hlen.
  assert (Hp : get_key_prefix s = s) by (apply substring_whole; lia).
  split; [assumption|]. split.
  - intros db. now rewrite Hp.
  - intros db db' t1 t2 r Hv.
    apply validate_key_accepts in Hv as (r0 & Hsel & _ & _ & -> & _).
    assert (Hin : In r0 (select_active_by_prefix db (get_key_prefix s)))
      by (rewrite Hsel; now left).
    apply select_active_by_prefix_In in Hin as (_ & _ & Hk).
    simpl. congruence.
Qed.

(** C1: the plaintext returned by a successful [create_key], presented at
    once to [validate_key] while the key has no expiry or one still ahead,
    is accepted, and the record returned is the stored one with the id that
    [create_key] reported. *)
Theorem create_then_validate_same_id
    (db db' : table) (data : APIKeyCreate.t) (token entropy uuid : string)
    (now now_check now_touch : datetime) (created : APIKeyCreated.t) :
  bcrypt_sound B ->
  create_key settings db data token entropy uuid now = Ok (db', created) ->
  (APIKeyCreated.expires_at created = None
   \/ exists e, APIKeyCreated.expires_at created = Some e /\ (now_check < e)%Z) ->
  exists (db'' : table) (r : APIKey),
    validate_key db' (APIKeyCreated.key created) now_check now_touch
    = Ok (db'', Some r)
    /\ id r = APIKeyCreated.id created
    /\ In r db''.
Proof.
  intros Hsound Hcreate Hexp. unfold create_key in Hcreate.
  destruct (hash_key settings (generate_key token) entropy)
    as [hashed|raised] eqn:Hhash; [|discriminate].
  apply hash_key_answers in Hhash as (Hlen & ->).
  match type of Hcreate with
  | match insert db ?k with _ => _ end = _ => set (api_key := k) in *
  end.
  destruct (insert db api_key) as [db1|e] eqn:Hins; [|discriminate].
  injection Hcreate as <- <-. simpl in *.
  apply insert_no_prefix in Hins as (-> & Hfresh).
  assert (Hsel : select_active_by_prefix (db ++ [api_key])
                   (get_key_prefix (generate_key token)) = [api_key]).
  { unfold select_active_by_prefix. rewrite filter_app.
    fold (select_active_by_prefix db (get_key_prefix (generate_key token))).
    rewrite (select_absent_prefix db (get_key_prefix (generate_key token)) Hfresh).
    simpl.
    now rewrite String.eqb_refl. }
  assert (Hver : verify_key (generate_key token) (key_hash api_key) = Ok true).
  { rewrite (verify_key_within (generate_key token) _ Hlen). f_equal.
    apply Hsound. }
  assert (Hlive : is_expired now_check api_key = false).
  { unfold is_expired. simpl. destruct Hexp as [->|(e & -> & Hlt)]; [reflexivity|].
    rewrite Z.gtb_ltb. apply Z.ltb_ge. lia. }
  rewrite (validate_key_on_row _ _ _ now_touch _ Hsel Hver), Hlive.
  eexists _, _. split; [reflexivity|]. split; [reflexivity|].
  unfold update_where_id. apply in_map_iff. exists api_key. split.
  - simpl. now rewrite String.eqb_refl.
  - apply in_or_app. right. now left.
Qed.

(** C4: for an active stored record and a plaintext of it, [validate_key]
    rejects exactly when [expires_at] is present and strictly before the
    instant of evaluation, and accepts the record otherwise; an absent
    [expires_at], or one equal to the instant of evaluation, is not expired. *)
Theorem validate_key_rejects_iff_expired
    (db : table) (r : APIKey) (key : string) (now_check now_touch : datetime) :
  constraints db -> In r db -> is_active r = true -> plaintext_of key r ->
  let expired := exists e, expires_at r = Some e /\ (e < now_check)%Z in
  (validate_key db key now_check now_touch = Ok (db, None) <-> expired)
  /\ (~ expired ->
      validate_key db key now_check now_touch
      = Ok (update_where_id (id r) (set_last_used_at now_touch) db,
            Some (set_last_used_at now_touch r)))
  /\ (expires_at r = None -> ~ expired)
  /\ (expires_at r = Some now_check -> ~ expired).
Proof.
  intros (_ & _ & Hp & _) Hin Hact (Hprefix & Hver) expired.
  assert (Hsel : select_active_by_prefix db (get_key_prefix key) = [r])
    by (rewrite Hprefix; now apply select_unique_prefix).
  rewrite (validate_key_on_row _ _ _ now_touch _ Hsel Hver).
  assert (Hexp : is_expired now_check r = true <-> expired).
  { unfold is_expired, expired. destruct (expires_at r) as [e|].
    - rewrite Z.gtb_ltb, Z.ltb_lt. split.
      + intros Hlt. now exists e.
      + intros (e' & He & Hlt). injection He as <-. assumption.
    - split; [discriminate|]. intros (e' & He & _). discriminate. }
  repeat split.
  - destruct (is_expired now_check r); [intros _; now apply Hexp|discriminate].
  - intros He. apply Hexp in He. now rewrite He.
  - intros Hne. destruct (is_expired now_check r); [|reflexivity].
    exfalso. apply Hne. now apply Hexp.
  - intros Hnone (e & He & _). congruence.
  - intros Heq (e & He & Hlt). rewrite Heq in He. injection He as <-. lia.
Qed.

(** ** Revocation *)

(** Some row carries [prefix] and every row that carries it is inactive. *)
Lemma prefix_retired_update (prefix key_id : string) (f : APIKey -> APIKey)
    (db : table) :
  (forall r, key_prefix (f r) = key_prefix r) ->
  (forall r, is_active r = false -> is_active (f r) = false) ->
  In prefix (map key_prefix db)
  /\ (forall x, In x db -> key_prefix x = prefix -> is_active x = false) ->
  In prefix (map key_prefix (update_where_id key_id f db))
  /\ (forall x, In x (update_where_id key_id f db) ->
                key_prefix x = prefix -> is_active x = false).
Proof.
  intros Hp Ha [Hin Hoff]. split.
  - now rewrite update_where_id_column.
  - intros x Hx Hpx. unfold update_where_id in Hx.
    apply in_map_iff in Hx as (y & <- & Hy).
    destruct (id y =? key_id).
    + apply Ha, Hoff; [assumption|]. now rewrite <- Hp.
    + now apply Hoff.
Qed.

Lemma prefix_retired_step (prefix : string) (db : table) (o : op) :
  In prefix (map key_prefix db)
  /\ (forall x, In x db -> key_prefix x = prefix -> is_active x = false) ->
  In prefix (map key_prefix (step settings db o))
  /\ (forall x, In x (step settings db o) ->
                key_prefix x = prefix -> is_active x = false).
Proof.
  intros Hinv. destruct o as [data token entropy uuid now|key t1 t2|key_id now]; simpl.
  - unfold create_key.
    destruct (hash_key settings (generate_key token) entropy)
      as [hashed|raised]; [|assumption].
    match goal with
    | |- context [insert db ?k] => destruct (insert db k) as [db'|e] eqn:Hins
    end; [|assumption].
    apply insert_no_prefix in Hins as (-> & Hfresh).
    destruct Hinv as [Hin Hoff]. split.
    + rewrite map_app, in_app_iff. now left.
    + intros x Hx Hpx. apply in_app_iff in Hx as [Hx|[<-|[]]]; [now apply Hoff|].
      exfalso. apply Hfresh. now rewrite Hpx.
  - destruct (validate_key db key t1 t2) as [[db' [r|]]|e] eqn:Hv; try assumption.
    + apply validate_key_accepts in Hv as (r0 & _ & _ & _ & _ & ->).
      now apply prefix_retired_update.
    + apply validate_key_rejects_keeps_table in Hv. now subst.
  - now apply prefix_retired_update.
Qed.

Lemma prefix_retired_run (prefix : string) (ops : list op) (db : table) :
  In prefix (map key_prefix db)
  /\ (forall x, In x db -> key_prefix x = prefix -> is_active x = false) ->
  In prefix (map key_prefix (run settings ops db))
  /\ (forall x, In x (run settings ops db) ->
                key_prefix x = prefix -> is_active x = false).
Proof.
  revert db. induction ops as [|o ops IH]; intros db Hinv; simpl; [assumption|].
  apply IH. now apply prefix_retired_step.
Qed.

Lemma revoke_key_rowcount (db : table) (key_id : string) (now : datetime) :
  snd (revoke_key db key_id now) = true <-> exists r, In r db /\ id r = key_id.
Proof.
  unfold revoke_key. simpl. rewrite Nat.ltb_lt. split.
  - destruct (filter (fun r => id r =? key_id) db) as [|r l] eqn:E; simpl; [lia|].
    intros _. exists r.
    assert (Hin : In r (filter (fun r => id r =? key_id) db)) by (rewrite E; now left).
    apply filter_In in Hin as [Hin Heq]. now apply String.eqb_eq in Heq.
  - intros (r & Hin & Hid).
    assert (Hf : In r (filter (fun r => id r =? key_id) db)).
    { apply filter_In. split; [assumption|]. now apply String.eqb_eq. }
    destruct (filter (fun r => id r =? key_id) db); [contradiction|simpl; lia].
Qed.

(** C2: once [revoke_key] has succeeded on a record's id, [validate_key]
    rejects every plaintext of that record, immediately and after any further
    operations on the store. *)
Theorem revoked_key_is_rejected
    (db : table) (r : APIKey) (key : string) (now : datetime)
    (ops : list op) (now_check now_touch : datetime) :
  constraints db -> In r db -> plaintext_of key r ->
  snd (revoke_key db (id r) now) = true ->
  let db' := run settings ops (fst (revoke_key db (id r) now)) in
  validate_key db' key now_check now_touch = Ok (db', None).
Proof.
  intros (Hid & _ & Hp & _) Hin (Hprefix & _) _ db'.
  assert (Hinv : In (key_prefix r) (map key_prefix db')
                 /\ (forall x, In x db' -> key_prefix x = key_prefix r ->
                               is_active x = false)).
  { subst db'. apply prefix_retired_run. simpl. split.
    - rewrite update_where_id_column by reflexivity. now apply in_map.
    - intros x Hx Hpx. unfold update_where_id in Hx.
      apply in_map_iff in Hx as (y & <- & Hy).
      destruct (id y =? id r) eqn:E; [reflexivity|].
      assert (y = r) by (apply (unique_column_injective key_prefix db); auto).
      subst y. now rewrite String.eqb_refl in E. }
  destruct Hinv as [_ Hoff]. unfold validate_key. rewrite Hprefix.
  destruct (select_active_by_prefix db' (key_prefix r)) as [|x l] eqn:E; [reflexivity|].
  assert (Hx : In x (select_active_by_prefix db' (key_prefix r))) by (rewrite E; now left).
  apply select_active_by_prefix_In in Hx as (Hx & Hact & Hpx).
  rewrite (Hoff x Hx Hpx) in Hact. discriminate.
Qed.

(** C6: [revoke_key] reports [true] exactly when a row with the given id is
    stored, whatever that row's [is_active]; it reports [false] exactly when
    no such row is stored, and a second call on the same id reports [true]
    again. *)
Theorem revoke_key_true_iff_stored
    (db : table) (key_id : string) (now now' : datetime) :
  (snd (revoke_key db key_id now) = true <-> exists r, In r db /\ id r = key_id)
  /\ (snd (revoke_key db key_id now) = false <-> ~ exists r, In r db /\ id r = key_id)
  /\ (snd (revoke_key db key_id now) = true ->
      snd (revoke_key (fst (revoke_key db key_id now)) key_id now') = true).
Proof.
  split; [apply revoke_key_rowcount|]. split.
  - rewrite <- (revoke_key_rowcount db key_id now).
    destruct (snd (revoke_key db key_id now)); split; congruence.
  - rewrite !revoke_key_rowcount. intros (r & Hin & Hid).
    exists (set_revoked now r). split; [|assumption].
    simpl. unfold update_where_id. apply in_map_iff. exists r.
    split; [|assumption]. apply String.eqb_eq in Hid. now rewrite Hid.
Qed.

(** ** One opaque failure *)

Lemma rejection_raises_401 (db : table) (api_key : option string)
    (now_check now_touch : datetime) :
  rejection settings db now_check api_key ->
  get_api_key settings api_key db now_check now_touch
  = RaiseHTTP {| status_code := 401; detail := "Invalid API key";
                 headers := [("WWW-Authenticate", "ApiKey")] |}.
Proof.
  intros Hrej. unfold get_api_key.
  destruct Hrej as [| |key Hlen|key Hsel|key r Hsel Hver|key r Hsel Hver Hexp];
    try reflexivity; (destruct key as [|c key]; [reflexivity|]).
  - apply Nat.ltb_lt in Hlen. now rewrite Hlen.
  - destruct (String.length (String c key) <? api_key_min_length settings)%nat;
      [reflexivity|].
    unfold validate_key. now rewrite Hsel.
  - destruct (String.length (String c key) <? api_key_min_length settings)%nat;
      [reflexivity|].
    unfold validate_key. rewrite Hsel. simpl. now rewrite Hver.
  - destruct (String.length (String c key) <? api_key_min_length settings)%nat;
      [reflexivity|].
    unfold validate_key. rewrite Hsel. simpl. now rewrite Hver, Hexp.
Qed.

(** The listed reasons are the only ones that end in the 401 response. *)
Lemma rejection_complete (db : table) (api_key : option string)
    (now_check now_touch : datetime) (e : HTTPException) :
  constraints db ->
  get_api_key settings api_key db now_check now_touch = RaiseHTTP e ->
  rejection settings db now_check api_key.
Proof.
  intros (_ & _ & Hp & _) Hfail. unfold get_api_key in Hfail.
  destruct api_key as [[|c key]|]; [apply KeyEmpty| |apply KeyAbsent].
  destruct (String.length (String c key) <? api_key_min_length settings)%nat eqn:Hlen.
  { apply KeyTooShort. now apply Nat.ltb_lt. }
  unfold validate_key in Hfail.
  destruct (select_at_most_one db (get_key_prefix (String c key)) Hp)
    as [Hsel|(r & Hsel)]; [now apply KeyNotFoundOrInactive|].
  rewrite Hsel in Hfail. simpl in Hfail.
  destruct (verify_key (String c key) (key_hash r)) as [[|]|raised] eqn:Hver;
    [|now apply (KeyHashMismatch _ _ _ _ r)|discriminate].
  destruct (is_expired now_check r) eqn:Hexp; [now apply (KeyExpired _ _ _ _ r)|].
  discriminate.
Qed.

(** What does not end in the 401 response: a key of more than 72 bytes whose
    first 12 characters are the prefix of an active stored row.  For it
    [bcrypt.checkpw] raises, nothing in [validate_key] or [get_api_key]
    catches the error, and it leaves [get_api_key] as it is. *)
Lemma get_api_key_escape (db : table) (api_key : option string)
    (now_check now_touch : datetime) (raised : exception) :
  constraints db ->
  (get_api_key settings api_key db now_check now_touch = RaiseOther raised
   <-> raised = ValueError
       /\ exists key r,
            api_key = Some key
            /\ api_key_min_length settings <= String.length key
            /\ 72 < encoded_length key
            /\ In r db /\ is_active r = true
            /\ key_prefix r = get_key_prefix key).
Proof.
  intros (_ & _ & Hp & _). split.
  - unfold get_api_key.
    destruct api_key as [[|c key]|]; try discriminate.
    destruct (String.length (String c key) <? api_key_min_length settings)%nat eqn:Hlen;
      [discriminate|].
    apply Nat.ltb_ge in Hlen. unfold validate_key.
    destruct (select_at_most_one db (get_key_prefix (String c key)) Hp)
      as [Hsel|(r & Hsel)]; rewrite Hsel; simpl; [discriminate|].
    assert (Hr : In r (select_active_by_prefix db (get_key_prefix (String c key))))
      by (rewrite Hsel; now left).
    apply select_active_by_prefix_In in Hr as (Hin & Hact & Hpr).
    destruct (le_lt_dec (encoded_length (String c key)) 72) as [Hle|Hgt].
    + rewrite (verify_key_within _ _ Hle).
      destruct (checkpw (String c key) (key_hash r)); simpl; [|discriminate].
      destruct (is_expired now_check r); discriminate.
    + rewrite (verify_key_beyond _ _ Hgt). intros H. injection H as <-.
      split; [reflexivity|]. exists (String c key), r. repeat split; assumption.
  - intros (-> & key & r & -> & Hmin & Hgt & Hin & Hact & Hpr).
    unfold get_api_key. destruct key as [|c key]; [simpl in Hgt; lia|].
    apply Nat.ltb_ge in Hmin. rewrite Hmin. unfold validate_key.
    rewrite <- Hpr, (select_unique_prefix db r Hp Hin Hact). simpl.
    now rewrite (verify_key_beyond _ _ Hgt).
Qed.

(** Among requests whose key, if any, has at most 72 bytes, those that are
    turned away all receive the one 401 response. *)
Lemma rejections_alike_within_72_bytes
    (api_key1 api_key2 : option string) (db1 db2 : table)
    (check1 touch1 check2 touch2 : datetime) :
  constraints db1 -> constraints db2 ->
  (forall key, api_key1 = Some key -> encoded_length key <= 72) ->
  (forall key, api_key2 = Some key -> encoded_length key <= 72) ->
  (forall a, get_api_key settings api_key1 db1 check1 touch1 <> Return a) ->
  (forall a, get_api_key settings api_key2 db2 check2 touch2 <> Return a) ->
  get_api_key settings api_key1 db1 check1 touch1
  = get_api_key settings api_key2 db2 check2 touch2
  /\ get_api_key settings api_key1 db1 check1 touch1
    = RaiseHTTP {| status_code := 401; detail := "Invalid API key";
                   headers := [("WWW-Authenticate", "ApiKey")] |}.
Proof.
  assert (Hone : forall api_key db t t',
             constraints db ->
             (forall key, api_key = Some key -> encoded_length key <= 72) ->
             (forall a, get_api_key settings api_key db t t' <> Return a) ->
             get_api_key settings api_key db t t'
             = RaiseHTTP {| status_code := 401; detail := "Invalid API key";
                            headers := [("WWW-Authenticate", "ApiKey")] |}).
  { intros api_key db t t' Hc Hlen Hfail. unfold get_api_key in *.
    destruct api_key as [[|c key]|]; try reflexivity.
    destruct (String.length (String c key) <? api_key_min_length settings)%nat;
      [reflexivity|].
    destruct (validate_key_total db (String c key) t t' Hc (Hlen _ eq_refl))
      as [Hv|(r & Hv)]; rewrite Hv in *; [reflexivity|].
    exfalso. eapply Hfail. reflexivity. }
  intros Hc1 Hc2 Hl1 Hl2 Hf1 Hf2. split; [|now apply Hone].
  rewrite (Hone _ _ _ _ Hc1 Hl1 Hf1). symmetry. now apply Hone.
Qed.

(** ** The revocation columns *)

Lemma step_revoked_at (db : table) (o : op) (n : nat) (r : APIKey) :
  nth_error db n = Some r ->
  exists r',
    nth_error (step settings db o) n = Some r'
    /\ id r' = id r
    /\ is_active r' = (match o with
                       | RevokeKey i _ => if i =? id r then false else is_active r
                       | _ => is_active r
                       end)
    /\ revoked_at r' = (match o with
                        | RevokeKey i t => if i =? id r then Some t else revoked_at r
                        | _ => revoked_at r
                        end).
Proof.
  intros Hn.
  assert (Hupd : forall key_id f,
             nth_error (update_where_id key_id f db) n
             = Some (if id r =? key_id then f r else r)).
  { intros key_id f. unfold update_where_id.
    exact (map_nth_error (fun x => if id x =? key_id then f x else x) n db Hn). }
  destruct o as [data token entropy uuid now|key t1 t2|key_id now]; simpl.
  - unfold create_key.
    destruct (hash_key settings (generate_key token) entropy)
      as [hashed|raised]; [|now exists r].
    match goal with
    | |- context [insert db ?k] => destruct (insert db k) as [db'|e] eqn:Hins
    end; [|now exists r].
    apply insert_no_prefix in Hins as (-> & _). exists r.
    rewrite nth_error_app1 by (apply nth_error_Some; congruence). auto.
  - destruct (validate_key db key t1 t2) as [[db' [r1|]]|e] eqn:Hv.
    + apply validate_key_accepts in Hv as (r0 & _ & _ & _ & _ & ->).
      rewrite Hupd. destruct (id r =? id r0); eauto.
    + apply validate_key_rejects_keeps_table in Hv. subst. now exists r.
    + now exists r.
  - rewrite Hupd, (String.eqb_sym key_id). destruct (id r =? key_id); eauto.
Qed.

(** C7, as the code has it: [create_key], [validate_key] and a [revoke_key]
    on another id leave a record's [revoked_at] as it is, and every
    [revoke_key] on the record's own id stores the instant of that call, so
    after any operations [revoked_at] is the instant of the last revocation
    of the record (and what it was before when there was none). *)
Theorem revoked_at_is_last_revocation
    (ops : list op) (db : table) (n : nat) (r : APIKey) :
  nth_error db n = Some r ->
  exists r',
    nth_error (run settings ops db) n = Some r'
    /\ id r' = id r
    /\ revoked_at r' = match last_revoke ops (id r) with
                       | Some t => Some t
                       | None => revoked_at r
                       end.
Proof.
  revert db r. induction ops as [|o ops IH]; intros db r Hn; simpl.
  - now exists r.
  - destruct (step_revoked_at db o n r Hn) as (r1 & Hn1 & Hid1 & _ & Hrev1).
    destruct (IH _ _ Hn1) as (r' & Hn' & Hid' & Hrev').
    exists r'. split; [assumption|]. split; [congruence|].
    rewrite Hrev', Hid1. destruct (last_revoke ops (id r)); [reflexivity|].
    rewrite Hrev1. destruct o as [| |i t]; try reflexivity.
    now destruct (i =? id r).
Qed.

(** C8: every operation keeps, for every stored record, [revoked_at] non-null
    exactly when [is_active] is false; so the relation holds of every record
    of every table reached from one where it holds, the empty table among
    them. *)
Theorem revocation_consistent_kept (ops : list op) (db : table) :
  Forall revocation_consistent db ->
  Forall revocation_consistent (run settings ops db).
Proof.
  revert db. induction ops as [|o ops IH]; intros db Hinv; simpl; [assumption|].
  apply IH. clear IH.
  assert (Hset : forall key_id t,
             Forall revocation_consistent (update_where_id key_id (set_last_used_at t) db)).
  { intros key_id t. unfold update_where_id. apply Forall_map.
    eapply Forall_impl; [|exact Hinv]. intros r Hr.
    now destruct (id r =? key_id). }
  destruct o as [data token entropy uuid now|key t1 t2|key_id now]; simpl.
  - unfold create_key.
    destruct (hash_key settings (generate_key token) entropy)
      as [hashed|raised]; [|assumption].
    match goal with
    | |- context [insert db ?k] => destruct (insert db k) as [db'|e] eqn:Hins
    end; [|assumption].
    apply insert_no_prefix in Hins as (-> & _).
    apply Forall_app. split; [assumption|]. constructor; [|constructor].
    unfold revocation_consistent. simpl. split; [congruence|discriminate].
  - destruct (validate_key db key t1 t2) as [[db' [r1|]]|e] eqn:Hv; try assumption.
    + apply validate_key_accepts in Hv as (r0 & _ & _ & _ & _ & ->). apply Hset.
    + apply validate_key_rejects_keeps_table in Hv. now subst.
  - unfold update_where_id. apply Forall_map.
    eapply Forall_impl; [|exact Hinv]. intros r Hr.
    destruct (id r =? key_id); [|assumption].
    unfold revocation_consistent. simpl. split; [reflexivity|discriminate].
Qed.

(** ** Search by prefix *)

Lemma like_percent (s : list ascii) : like ["%"%char] s = true.
Proof.
  induction s as [|x s IH]; [reflexivity|].
  simpl in *. exact IH.
Qed.

Lemma list_ascii_of_string_app (a b : string) :
  list_ascii_of_string (a ++ b)
  = list_ascii_of_string a ++ list_ascii_of_string b.
Proof.
  induction a as [|c a IH]; simpl; [reflexivity|]. now rewrite IH.
Qed.

(** On a search string without [%], [_] and backslash the rendered [LIKE]
    is the plain prefix test. *)
Lemma startswith_literal (other column : string) :
  wildcard_free other = true -> startswith column other = String.prefix other column.
Proof.
  unfold startswith, wildcard_free. rewrite list_ascii_of_string_app.
  revert column. induction other as [|c other IH]; intros column Hwf.
  - simpl. rewrite like_percent. now destruct column.
  - simpl in Hwf. apply andb_true_iff in Hwf as [Hc Hwf].
    apply negb_true_iff in Hc.
    apply orb_false_elim in Hc as [Hc Hesc].
    apply orb_false_elim in Hc as [Hpct Hund].
    destruct column as [|x column]; simpl; rewrite Hpct, Hund, Hesc.
    + reflexivity.
    + destruct (ascii_dec c x) as [->|Hne].
      * rewrite Ascii.eqb_refl. simpl. now apply IH.
      * apply Ascii.eqb_neq in Hne. now rewrite Hne.
Qed.

Lemma get_key_by_prefix_too_short (db : table) (prefix : string) :
  String.length prefix < 4 -> get_key_by_prefix db prefix = Ok None.
Proof.
  intros Hlen. unfold get_key_by_prefix, MIN_PREFIX_LENGTH.
  apply Nat.ltb_lt in Hlen. now rewrite Hlen.
Qed.

Lemma get_key_by_prefix_long_enough (db : table) (prefix : string) :
  4 <= String.length prefix ->
  get_key_by_prefix db prefix
  = match filter (fun r => startswith (key_prefix r) prefix) db with
    | [] => Ok None
    | [r] => Ok (Some r)
    | _ :: _ :: _ => Raise MultipleResultsFound
    end.
Proof.
  intros Hlen. unfold get_key_by_prefix, MIN_PREFIX_LENGTH.
  apply Nat.ltb_ge in Hlen. now rewrite Hlen.
Qed.

End AuthFacts.

(** * Properties of the item service *)

Section ItemFacts.

Import Items.

Lemma option_eqb_eq (a b : option string) : option_eqb a b = true <-> a = b.
Proof.
  destruct a as [x|], b as [y|]; simpl; try (split; congruence).
  rewrite String.eqb_eq. split; congruence.
Qed.

Lemma get_by_id_stored (db : table) (item : Item) :
  NoDup (map id db) -> In item db -> get_by_id db (id item) = Ok (Some item).
Proof.
  intros Hnd Hin. unfold get_by_id.
  rewrite (filter_unique_column id _ db item Hnd Hin); [reflexivity| |].
  - apply String.eqb_refl.
  - intros x Hx. now apply String.eqb_eq.
Qed.

Lemma flush_refresh_frame (db db' : table) (item item' : Item)
    (name' description' : option string) (now : datetime) :
  NoDup (map id db) -> In item db ->
  flush_refresh db item name' description' now = Ok (db', item') ->
  name' = Some (name item') /\ description' = description item'
  /\ id item' = id item /\ created_at item' = created_at item
  /\ (updated_at item' = updated_at item \/ updated_at item' = now)
  /\ db' = map (fun r => if id r =? id item then item' else r) db.
Proof.
  intros Hnd Hin. unfold flush_refresh.
  destruct (option_eqb name' (Some (name item))) eqn:En;
    destruct (option_eqb description' (description item)) eqn:Ed; simpl.
  - intros H. injection H as <- <-.
    apply option_eqb_eq in En, Ed. repeat split; auto.
    rewrite <- (map_id db) at 1. apply map_ext_in. intros r Hr.
    destruct (id r =? id item) eqn:E; [|reflexivity].
    apply String.eqb_eq in E.
    now apply (unique_column_injective id db).
  - destruct name' as [n|]; [|discriminate].
    intros H. injection H as <- <-. simpl. repeat split; auto.
  - destruct name' as [n|]; [|discriminate].
    intros H. injection H as <- <-. simpl. repeat split; auto.
  - destruct name' as [n|]; [|discriminate].
    intros H. injection H as <- <-. simpl. repeat split; auto.
Qed.

(** C9: an update of a stored item gives back that item with the same [id]
    and [created_at]; [name] and [description] take the payload's value when
    the payload carries the field and keep their own when it does not (so a
    payload with only [name] leaves [description] alone); [updated_at] keeps
    its value or becomes the instant of the update; every other row of the
    table stays as it is.  The only payload that is refused is one whose
    [name] is null. *)
Theorem update_changes_only_name_and_description
    (db : table) (item : Item) (data : ItemUpdate.t) (now : datetime) :
  NoDup (map id db) -> In item db ->
  match update db (id item) data now with
  | Ok (db', Some item') =>
      id item' = id item
      /\ created_at item' = created_at item
      /\ (ItemUpdate.name data = None -> name item' = name item)
      /\ (ItemUpdate.description data = None ->
          description item' = description item)
      /\ (forall v, ItemUpdate.name data = Some v -> v = Some (name item'))
      /\ (forall v, ItemUpdate.description data = Some v -> v = description item')
      /\ (updated_at item' = updated_at item \/ updated_at item' = now)
      /\ List.length db' = List.length db
      /\ (forall n r, nth_error db n = Some r ->
            nth_error db' n = Some (if id r =? id item then item' else r))
  | Ok (_, None) => False
  | Raise e => e = IntegrityError /\ ItemUpdate.name data = Some None
  end.
Proof.
  intros Hnd Hin. unfold update. rewrite (get_by_id_stored db item Hnd Hin).
  simpl.
  match goal with
  | |- context [flush_refresh db item ?n ?d now] =>
      set (name' := n); set (description' := d)
  end.
  destruct (flush_refresh db item name' description' now) as [[db' item']|e] eqn:Hf.
  - apply flush_refresh_frame in Hf as (Hn & Hd & Hid & Hc & Hu & ->); try assumption.
    subst name' description'.
    repeat split; try assumption.
    + intros E. rewrite E in Hn. congruence.
    + intros E. rewrite E in Hd. congruence.
    + intros v E. rewrite E in Hn. assumption.
    + intros v E. rewrite E in Hd. assumption.
    + apply length_map.
    + intros n r Hr.
      exact (map_nth_error (fun x => if id x =? id item then item' else x) n db Hr).
  - unfold flush_refresh in Hf.
    destruct (negb (option_eqb name' (Some (name item)))
              || negb (option_eqb description' (description item))); [|discriminate].
    destruct name' as [n|] eqn:En; [discriminate|].
    injection Hf as <-. split; [reflexivity|].
    subst name'. destruct (ItemUpdate.name data) as [v|]; [|discriminate].
    now subst v.
Qed.

End ItemFacts.

(** * Listings *)

Section Listing.

Context {A : Type} (col : A -> datetime).

Lemma insert_desc_perm (r : A) (rows : list A) :
  Permutation (insert_desc col r rows) (r :: rows).
Proof.
  induction rows as [|x rows IH]; simpl; [reflexivity|].
  destruct (col x <=? col r)%Z; [reflexivity|].
  rewrite IH. apply perm_swap.
Qed.

Lemma order_by_desc_perm (rows : list A) :
  Permutation (order_by_desc col rows) rows.
Proof.
  induction rows as [|x rows IH]; simpl; [reflexivity|].
  unfold order_by_desc in *. simpl. rewrite insert_desc_perm. now constructor.
Qed.

Lemma insert_desc_sorted (r : A) (rows : list A) :
  StronglySorted (newest_first col) rows ->
  StronglySorted (newest_first col) (insert_desc col r rows).
Proof.
  induction rows as [|x rows IH]; intros Hs; simpl.
  - constructor; constructor.
  - inversion Hs as [|y l Hs' Hall]; subst.
    destruct (col x <=? col r)%Z eqn:E.
    + apply Z.leb_le in E. constructor; [assumption|].
      constructor; [exact E|].
      eapply Forall_impl; [|exact Hall]. unfold newest_first. intros b Hb. lia.
    + apply Z.leb_gt in E. constructor; [now apply IH|].
      eapply Permutation_Forall.
      * symmetry. apply insert_desc_perm.
      * constructor; [unfold newest_first; lia|assumption].
Qed.

Lemma order_by_desc_sorted (rows : list A) :
  StronglySorted (newest_first col) (order_by_desc col rows).
Proof.
  induction rows as [|x rows IH]; [constructor|].
  unfold order_by_desc in *. simpl. now apply insert_desc_sorted.
Qed.

Lemma skipn_sorted (n : nat) (rows : list A) :
  StronglySorted (newest_first col) rows -> StronglySorted (newest_first col) (skipn n rows).
Proof.
  revert rows. induction n as [|n IH]; intros [|x rows] Hs; simpl; try assumption.
  inversion Hs; subst. now apply IH.
Qed.

Lemma firstn_sorted (n : nat) (rows : list A) :
  StronglySorted (newest_first col) rows -> StronglySorted (newest_first col) (firstn n rows).
Proof.
  revert rows. induction n as [|n IH]; intros [|x rows] Hs; simpl; try constructor.
  - inversion Hs; subst. now apply IH.
  - inversion Hs as [|y l Hs' Hall]; subst.
    apply Forall_forall. intros b Hb.
    rewrite Forall_forall in Hall. apply Hall.
    rewrite <- (firstn_skipn n rows). apply in_or_app. now left.
Qed.

Lemma offset_limit_length (skip limit : nat) (rows : list A) :
  List.length (offset_limit skip limit rows)
  = Nat.min limit (List.length rows - skip).
Proof.
  unfold offset_limit. now rewrite length_firstn, length_skipn.
Qed.

Lemma offset_limit_In (skip limit : nat) (rows : list A) (x : A) :
  In x (offset_limit skip limit rows) -> In x rows.
Proof.
  unfold offset_limit. intros Hin.
  rewrite <- (firstn_skipn skip rows). apply in_or_app. right.
  rewrite <- (firstn_skipn limit (skipn skip rows)). apply in_or_app. now left.
Qed.

Lemma offset_limit_all (limit : nat) (rows : list A) :
  List.length rows <= limit -> offset_limit 0 limit rows = rows.
Proof.
  intros Hlen. unfold offset_limit. simpl. now apply firstn_all2.
Qed.

End Listing.

(** * More on the key service *)

Section KeyStore.

Import Auth.

Context {B : Bcrypt}.
Variable settings : Settings.

(** [list_keys] counts the whole table whatever the page asked for; the page
    holds [min limit (total - skip)] stored rows, newest first; a page from
    the start that is long enough holds every row. *)
Theorem list_keys_pages (db : table) (skip limit : nat) :
  snd (list_keys db skip limit) = List.length db
  /\ List.length (fst (list_keys db skip limit))
     = Nat.min limit (List.length db - skip)
  /\ (forall r, In r (fst (list_keys db skip limit)) -> In r db)
  /\ StronglySorted (newest_first created_at) (fst (list_keys db skip limit))
  /\ (List.length db <= limit -> Permutation (fst (list_keys db 0 limit)) db).
Proof.
  unfold list_keys. simpl. repeat split.
  - rewrite offset_limit_length.
    now rewrite (Permutation_length (order_by_desc_perm created_at db)).
  - intros r Hr. apply offset_limit_In in Hr.
    now apply (Permutation_in _ (order_by_desc_perm created_at db)).
  - unfold offset_limit. apply firstn_sorted, skipn_sorted, order_by_desc_sorted.
  - intros Hlen. rewrite offset_limit_all; [apply order_by_desc_perm|].
    now rewrite (Permutation_length (order_by_desc_perm created_at db)).
Qed.

(** A validation changes nothing but [last_used_at], and that only in the
    row it accepts: every row stays in its place with all other columns as
    they were, and a rejected key leaves the table as it was. *)
Theorem validate_key_touches_only_last_used_at
    (db db' : table) (key : string) (now_check now_touch : datetime)
    (res : option APIKey) :
  validate_key db key now_check now_touch = Ok (db', res) ->
  List.length db' = List.length db
  /\ (res = None -> db' = db)
  /\ (forall r1, res = Some r1 -> last_used_at r1 = Some now_touch /\ In r1 db')
  /\ (forall n r, nth_error db n = Some r ->
        nth_error db' n = Some r
        \/ (nth_error db' n = Some (set_last_used_at now_touch r)
            /\ exists r1, res = Some r1 /\ id r1 = id r)).
Proof.
  intros Hv. destruct res as [r1|].
  - apply validate_key_accepts in Hv as (r0 & Hsel & _ & _ & -> & ->).
    assert (Hin : In r0 db).
    { assert (H : In r0 (select_active_by_prefix db (get_key_prefix key)))
        by (rewrite Hsel; now left).
      now apply select_active_by_prefix_In in H. }
    unfold update_where_id. split; [apply length_map|].
    split; [discriminate|]. split.
    + intros r1 H. injection H as <-. split; [reflexivity|].
      apply in_map_iff. exists r0. split; [|assumption].
      simpl. now rewrite String.eqb_refl.
    + intros n r Hn.
      rewrite (map_nth_error
                 (fun x => if id x =? id r0 then set_last_used_at now_touch x else x)
                 n db Hn).
      destruct (id r =? id r0) eqn:E; [right|now left].
      split; [reflexivity|]. eexists. split; [reflexivity|].
      apply String.eqb_eq in E. simpl. congruence.
  - apply validate_key_rejects_keeps_table in Hv. subst db'.
    split; [reflexivity|]. split; [reflexivity|]. split; [discriminate|].
    intros n r Hn. now left.
Qed.

Lemma get_key_by_id_stored (db : table) (r : APIKey) :
  constraints db -> In r db -> get_key_by_id db (id r) = Ok (Some r).
Proof.
  intros (Hid & _) Hin. unfold get_key_by_id.
  rewrite (filter_unique_column id _ db r Hid Hin); [reflexivity| |].
  - apply String.eqb_refl.
  - intros x Hx. now apply String.eqb_eq.
Qed.

Lemma filter_id_absent (db : table) (key_id : string) :
  (forall r, In r db -> id r <> key_id) ->
  filter (fun r => id r =? key_id) db = [].
Proof.
  intros Hnone.
  destruct (filter (fun r => id r =? key_id) db) as [|x l] eqn:E; [reflexivity|].
  assert (Hx : In x (filter (fun r => id r =? key_id) db)) by (rewrite E; now left).
  apply filter_In in Hx as [Hx Heq]. apply String.eqb_eq in Heq.
  now destruct (Hnone x Hx).
Qed.

(** Revoking a stored key and looking its id up gives the same row with
    [is_active] false and [revoked_at] the instant of the call; revoking an
    id that is not stored reports [false] and leaves the table as it was. *)
Theorem revoke_key_then_get_key_by_id
    (db : table) (key_id : string) (now : datetime) :
  constraints db ->
  (forall r, In r db -> id r = key_id ->
     get_key_by_id (fst (revoke_key db key_id now)) key_id
     = Ok (Some (set_revoked now r)))
  /\ ((forall r, In r db -> id r <> key_id) ->
      revoke_key db key_id now = (db, false)).
Proof.
  intros Hc. split.
  - intros r Hin Heq.
    assert (Hc' : constraints (fst (revoke_key db key_id now)))
      by (simpl; now apply update_where_id_constraints).
    subst key_id.
    apply (get_key_by_id_stored _ (set_revoked now r) Hc').
    simpl. unfold update_where_id. apply in_map_iff. exists r.
    split; [|assumption]. now rewrite String.eqb_refl.
  - intros Hnone. unfold revoke_key.
    rewrite (filter_id_absent db key_id Hnone). simpl. f_equal. unfold update_where_id.
    rewrite <- (map_id db) at 2. apply map_ext_in. intros r Hr.
    destruct (id r =? key_id) eqn:E; [|reflexivity].
    apply String.eqb_eq in E. now destruct (Hnone r Hr).
Qed.

(** ** Repeated use and expiry *)

Lemma update_where_id_twice (key_id : string) (f g : APIKey -> APIKey)
    (db : table) :
  (forall r, id (f r) = id r) ->
  update_where_id key_id g (update_where_id key_id f db)
  = update_where_id key_id (fun r => g (f r)) db.
Proof.
  intros Hid. unfold update_where_id. rewrite map_map. apply map_ext.
  intros r. destruct (id r =? key_id) eqn:E; [|now rewrite E].
  now rewrite Hid, E.
Qed.

(** Use does not wear a key out: a key accepted once is accepted again at
    any later check that finds it unexpired, as the same record, and the
    table then holds the instant of the later touch in [last_used_at]. *)
Theorem validate_key_again
    (db db1 : table) (key : string) (r1 : APIKey)
    (now_check now_touch now_check' now_touch' : datetime) :
  constraints db ->
  validate_key db key now_check now_touch = Ok (db1, Some r1) ->
  is_expired now_check' r1 = false ->
  validate_key db1 key now_check' now_touch'
  = Ok (update_where_id (id r1) (set_last_used_at now_touch') db,
        Some (set_last_used_at now_touch' r1))
  /\ id (set_last_used_at now_touch' r1) = id r1
  /\ last_used_at (set_last_used_at now_touch' r1) = Some now_touch'.
Proof.
  intros Hc Hv Hexp.
  apply validate_key_accepts in Hv as (r0 & Hsel & Hver & _ & -> & ->).
  assert (Hrow : In r0 db /\ is_active r0 = true
                 /\ key_prefix r0 = get_key_prefix key).
  { apply select_active_by_prefix_In. rewrite Hsel. now left. }
  destruct Hrow as (Hin & Hact & Hp).
  assert (Hc1 : constraints (update_where_id (id r0) (set_last_used_at now_touch) db))
    by now apply update_where_id_constraints.
  assert (Hin1 : In (set_last_used_at now_touch r0)
                   (update_where_id (id r0) (set_last_used_at now_touch) db)).
  { unfold update_where_id. apply in_map_iff. exists r0.
    split; [now rewrite String.eqb_refl|assumption]. }
  assert (Hsel1 : select_active_by_prefix
                    (update_where_id (id r0) (set_last_used_at now_touch) db)
                    (get_key_prefix key)
                  = [set_last_used_at now_touch r0]).
  { rewrite <- Hp. destruct Hc1 as (_ & _ & Hu & _).
    now apply (select_unique_prefix _ (set_last_used_at now_touch r0) Hu Hin1). }
  rewrite (validate_key_on_row _ _ _ now_touch' _ Hsel1 Hver), Hexp.
  split; [|split; reflexivity]. f_equal. f_equal.
  simpl. now rewrite update_where_id_twice.
Qed.

Lemma expiry_kept_update (prefix key_id : string) (e : datetime)
    (f : APIKey -> APIKey) (db : table) :
  (forall r, key_prefix (f r) = key_prefix r) ->
  (forall r, expires_at (f r) = expires_at r) ->
  (forall x, In x db -> key_prefix x = prefix -> expires_at x = Some e) ->
  forall x, In x (update_where_id key_id f db) ->
            key_prefix x = prefix -> expires_at x = Some e.
Proof.
  intros Hp He Hinv x Hx Hpx. unfold update_where_id in Hx.
  apply in_map_iff in Hx as (y & <- & Hy).
  destruct (id y =? key_id).
  - rewrite He. apply Hinv; [assumption|]. now rewrite <- Hp.
  - now apply Hinv.
Qed.

Lemma expiry_kept_step (prefix : string) (e : datetime) (db : table) (o : op) :
  In prefix (map key_prefix db)
  /\ (forall x, In x db -> key_prefix x = prefix -> expires_at x = Some e) ->
  In prefix (map key_prefix (step settings db o))
  /\ (forall x, In x (step settings db o) ->
                key_prefix x = prefix -> expires_at x = Some e).
Proof.
  intros [Hin Hinv].
  destruct o as [data token entropy uuid now|key t1 t2|key_id now]; simpl.
  - unfold create_key.
    destruct (hash_key settings (generate_key token) entropy)
      as [hashed|raised]; [|now split].
    match goal with
    | |- context [insert db ?k] => destruct (insert db k) as [db'|err] eqn:Hins
    end; [|now split].
    apply insert_no_prefix in Hins as (-> & Hfresh). split.
    + rewrite map_app, in_app_iff. now left.
    + intros x Hx Hpx. apply in_app_iff in Hx as [Hx|[<-|[]]]; [now apply Hinv|].
      exfalso. apply Hfresh. now rewrite Hpx.
  - destruct (validate_key db key t1 t2) as [[db' [r|]]|err] eqn:Hv;
      try (now split).
    + apply validate_key_accepts in Hv as (r0 & _ & _ & _ & _ & ->). split.
      * now rewrite update_where_id_column.
      * now apply expiry_kept_update.
    + apply validate_key_rejects_keeps_table in Hv. subst. now split.
  - split.
    + now rewrite update_where_id_column.
    + now apply expiry_kept_update.
Qed.

(** No operation of the service extends or clears an expiry: a stored key
    that is expired at some instant is rejected at every later instant,
    whatever was created, validated or revoked in between.  The key
    presented is any that [bcrypt] takes (at most 72 bytes, as the stored
    key's own plaintext is) and that carries the stored prefix. *)
Theorem expired_key_stays_rejected
    (db : table) (r : APIKey) (key : string) (e : datetime) (ops : list op)
    (now_check now_touch : datetime) :
  constraints db -> In r db -> get_key_prefix key = key_prefix r ->
  encoded_length key <= 72 ->
  expires_at r = Some e -> (e < now_check)%Z ->
  validate_key (run settings ops db) key now_check now_touch
  = Ok (run settings ops db, None).
Proof.
  intros Hc Hin Hp Hlen He Hlt.
  assert (Hinv : In (key_prefix r) (map key_prefix (run settings ops db))
                 /\ (forall x, In x (run settings ops db) ->
                               key_prefix x = key_prefix r ->
                               expires_at x = Some e)).
  { assert (Hstart : In (key_prefix r) (map key_prefix db)
                     /\ (forall x, In x db -> key_prefix x = key_prefix r ->
                                   expires_at x = Some e)).
    { split; [now apply in_map|]. intros x Hx Hpx.
      destruct Hc as (_ & _ & Hu & _).
      assert (x = r) by (apply (unique_column_injective key_prefix db); auto).
      now subst x. }
    revert Hstart. generalize db. clear.
    induction ops as [|o ops IH]; intros d Hd; simpl; [assumption|].
    apply IH. now apply expiry_kept_step. }
  destruct Hinv as [_ Hinv].
  pose proof (run_constraints settings ops db Hc) as (_ & _ & Hu & _).
  unfold validate_key. rewrite Hp.
  destruct (select_at_most_one (run settings ops db) (key_prefix r) Hu)
    as [->|(x & Hsel)]; [reflexivity|].
  rewrite Hsel. simpl.
  assert (Hx : In x (select_active_by_prefix (run settings ops db) (key_prefix r)))
    by (rewrite Hsel; now left).
  apply select_active_by_prefix_In in Hx as (Hx & _ & Hpx).
  rewrite (verify_key_within _ _ Hlen).
  destruct (checkpw key (key_hash x)); simpl; [|reflexivity].
  unfold is_expired. rewrite (Hinv x Hx Hpx).
  assert (Hgt : (now_check >? e)%Z = true) by (rewrite Z.gtb_ltb; now apply Z.ltb_lt).
  now rewrite Hgt.
Qed.

(** ** Authentication as a whole *)


(** ** Issuing *)

Lemma generate_key_length (token : string) :
  String.length (generate_key token) = 3 + String.length token.
Proof. reflexivity. Qed.

Lemma create_key_row (db db' : table) (data : APIKeyCreate.t)
    (token entropy uuid : string) (now : datetime) (created : APIKeyCreated.t) :
  create_key settings db data token entropy uuid now = Ok (db', created) ->
  let row :=
    {| id := uuid;
       name := APIKeyCreate.name data;
       client_id := APIKeyCreate.client_id data;
       key_hash := hashpw (generate_key token)
                     (gensalt (bcrypt_rounds settings) entropy);
       key_prefix := get_key_prefix (generate_key token);
       is_active := true;
       expires_at := APIKeyCreate.expires_at data;
       created_at := now;
       last_used_at := None;
       revoked_at := None |} in
  db' = db ++ [row]
  /\ existsb (conflicts row) db = false
  /\ created =
     {| APIKeyCreated.id := uuid;
        APIKeyCreated.name := APIKeyCreate.name data;
        APIKeyCreated.client_id := APIKeyCreate.client_id data;
        APIKeyCreated.key_prefix := get_key_prefix (generate_key token);
        APIKeyCreated.key := generate_key token;
        APIKeyCreated.expires_at := APIKeyCreate.expires_at data;
        APIKeyCreated.created_at := now |}.
Proof.
  unfold create_key, insert. intros H. cbv zeta.
  destruct (hash_key settings (generate_key token) entropy)
    as [hashed|raised] eqn:Hhash; [|discriminate].
  apply hash_key_answers in Hhash as (_ & ->).
  match type of H with
  | context [existsb (conflicts ?k) db] =>
      destruct (existsb (conflicts k) db) eqn:Hex; [discriminate|]
  end.
  injection H as <- <-. repeat split.
Qed.

Lemma create_key_within_72_bytes (db db' : table) (data : APIKeyCreate.t)
    (token entropy uuid : string) (now : datetime) (created : APIKeyCreated.t) :
  create_key settings db data token entropy uuid now = Ok (db', created) ->
  encoded_length (generate_key token) <= 72.
Proof.
  unfold create_key. intros H.
  destruct (hash_key settings (generate_key token) entropy)
    as [hashed|raised] eqn:Hhash; [|discriminate].
  now apply hash_key_answers in Hhash.
Qed.

Lemma no_conflict_columns (db : table) (row x : APIKey) :
  existsb (conflicts row) db = false -> In x db ->
  id x <> id row /\ key_hash x <> key_hash row /\ key_prefix x <> key_prefix row
  /\ ~ (client_id x = client_id row /\ name x = name row).
Proof.
  intros Hex Hin.
  assert (Hc : conflicts row x = false).
  { destruct (conflicts row x) eqn:E; [|reflexivity].
    assert (existsb (conflicts row) db = true) by (apply existsb_exists; eauto).
    congruence. }
  unfold conflicts in Hc.
  apply orb_false_elim in Hc as [Hc Hpair].
  apply orb_false_elim in Hc as [Hc Hprefix].
  apply orb_false_elim in Hc as [Hid Hhash].
  apply String.eqb_neq in Hid, Hhash, Hprefix.
  repeat split; try assumption.
  intros [Hcl Hn]. rewrite Hcl, Hn, !String.eqb_refl in Hpair. discriminate.
Qed.

Lemma select_appended_row (db : table) (row : APIKey) :
  existsb (conflicts row) db = false -> is_active row = true ->
  select_active_by_prefix (db ++ [row]) (key_prefix row) = [row].
Proof.
  intros Hex Hact. unfold select_active_by_prefix. rewrite filter_app.
  fold (select_active_by_prefix db (key_prefix row)).
  rewrite select_absent_prefix.
  - simpl. now rewrite Hact, String.eqb_refl.
  - intros Hin. apply in_map_iff in Hin as (x & Hp & Hx).
    destruct (no_conflict_columns db row x Hex Hx) as (_ & _ & Hne & _).
    contradiction.
Qed.

(** A successful [create_key] appends one row and changes no other: the new
    row is active, never used, not revoked, carries the requested name,
    client and expiry and the first 12 characters of the returned key (at
    most 12, the width of the column); the key is [sk_] followed by the
    token; and looking the returned id up gives that row. *)
Theorem create_key_stores_a_fresh_active_row
    (db db' : table) (data : APIKeyCreate.t) (token entropy uuid : string)
    (now : datetime) (created : APIKeyCreated.t) :
  create_key settings db data token entropy uuid now = Ok (db', created) ->
  exists row,
    db' = db ++ [row]
    /\ get_key_by_id db' (APIKeyCreated.id created) = Ok (Some row)
    /\ id row = uuid
    /\ name row = APIKeyCreate.name data
    /\ client_id row = APIKeyCreate.client_id data
    /\ expires_at row = APIKeyCreate.expires_at data
    /\ is_active row = true /\ last_used_at row = None /\ revoked_at row = None
    /\ APIKeyCreated.key created = String "s" (String "k" (String "_" token))
    /\ key_prefix row = substring 0 12 (APIKeyCreated.key created)
    /\ APIKeyCreated.key_prefix created = key_prefix row
    /\ String.length (key_prefix row) <= 12.
Proof.
  intros Hcreate. apply create_key_row in Hcreate as (-> & Hex & ->).
  eexists. split; [reflexivity|]. split.
  - unfold get_key_by_id. rewrite filter_app. simpl. rewrite String.eqb_refl.
    rewrite filter_id_absent; [reflexivity|].
    intros r Hr. now apply (no_conflict_columns db _ r Hex Hr).
  - repeat split.
    change (String.length (get_key_prefix (generate_key token)) <= 12).
    rewrite get_key_prefix_length. lia.
Qed.

(** A key just issued passes [get_api_key] when the configured minimum
    length does not exceed the key's length (3 plus the token's) and the key
    is not expired; when the minimum exceeds it, the key is turned away
    although it is stored and active. *)
Theorem issued_key_authenticates
    (db db' : table) (data : APIKeyCreate.t) (token entropy uuid : string)
    (now now_check now_touch : datetime) (created : APIKeyCreated.t) :
  bcrypt_sound B ->
  create_key settings db data token entropy uuid now = Ok (db', created) ->
  (forall e, APIKeyCreated.expires_at created = Some e -> (now_check <= e)%Z) ->
  (api_key_min_length settings <= 3 + String.length token ->
   exists db'' r,
     get_api_key settings (Some (APIKeyCreated.key created)) db' now_check now_touch
     = Return (db'', r)
     /\ id r = APIKeyCreated.id created
     /\ last_used_at r = Some now_touch)
  /\ (3 + String.length token < api_key_min_length settings ->
      get_api_key settings (Some (APIKeyCreated.key created)) db' now_check now_touch
      = RaiseHTTP {| status_code := 401; detail := "Invalid API key";
                     headers := [("WWW-Authenticate", "ApiKey")] |}).
Proof.
  intros Hsound Hcreate Hexp.
  pose proof (create_key_within_72_bytes _ _ _ _ _ _ _ _ Hcreate) as Hbytes.
  apply create_key_row in Hcreate as (-> & Hex & ->).
  match goal with
  | |- context [db ++ [?k]] => set (row := k) in *
  end.
  cbn [APIKeyCreated.key APIKeyCreated.id APIKeyCreated.expires_at] in *.
  unfold get_api_key.
  rewrite generate_key_length.
  change (generate_key token) with (String "s" (String "k" (String "_" token))) at 1 3.
  split; intros Hlen.
  - apply Nat.ltb_ge in Hlen. rewrite Hlen.
    assert (Hsel : select_active_by_prefix (db ++ [row])
                     (get_key_prefix (generate_key token)) = [row])
      by (apply (select_appended_row db row Hex); reflexivity).
    assert (Hver : verify_key (generate_key token) (key_hash row) = Ok true).
    { rewrite (verify_key_within (generate_key token) _ Hbytes). f_equal.
      apply Hsound. }
    assert (Hlive : is_expired now_check row = false).
    { unfold is_expired. cbn [expires_at row].
      destruct (APIKeyCreate.expires_at data) as [e|]; [|reflexivity].
      rewrite Z.gtb_ltb. apply Z.ltb_ge. now apply Hexp. }
    rewrite (validate_key_on_row _ _ _ now_touch _ Hsel Hver), Hlive.
    eexists _, _. repeat split.
  - apply Nat.ltb_lt in Hlen. now rewrite Hlen.
Qed.

(** ** Names stay taken *)

Lemma name_taken_step (client name0 : string) (db : table) (o : op) :
  (exists x, In x db /\ client_id x = client /\ name x = name0) ->
  exists x, In x (step settings db o) /\ client_id x = client /\ name x = name0.
Proof.
  intros (x & Hin & Hc & Hn).
  assert (Hupd : forall key_id f,
             (forall r, client_id (f r) = client_id r) ->
             (forall r, name (f r) = name r) ->
             exists y, In y (update_where_id key_id f db)
                       /\ client_id y = client /\ name y = name0).
  { intros key_id f Hfc Hfn.
    exists (if id x =? key_id then f x else x). split.
    - unfold update_where_id.
      apply (in_map (fun r => if id r =? key_id then f r else r) db x Hin).
    - destruct (id x =? key_id); [rewrite Hfc, Hfn|]; auto. }
  destruct o as [data token entropy uuid now|key t1 t2|key_id now]; simpl.
  - unfold create_key.
    destruct (hash_key settings (generate_key token) entropy)
      as [hashed|raised]; [|eauto].
    match goal with
    | |- context [insert db ?k] => destruct (insert db k) as [db'|e] eqn:Hins
    end; [|eauto].
    apply insert_no_prefix in Hins as (-> & _).
    exists x. split; [apply in_or_app; now left|auto].
  - destruct (validate_key db key t1 t2) as [[db' [r|]]|e] eqn:Hv; eauto.
    + apply validate_key_accepts in Hv as (r0 & _ & _ & _ & _ & ->).
      now apply Hupd.
    + apply validate_key_rejects_keeps_table in Hv. subst. eauto.
  - now apply Hupd.
Qed.

(** Once a key has been issued under a client and a name, every later
    [create_key] for the same client and name raises [IntegrityError],
    whatever happened to the first key in between (use, revocation) and
    whatever token and id the new one would get; only a token that makes
    the key longer than 72 bytes fails earlier, in [hash_key]. *)
Theorem issued_name_stays_taken
    (db db' : table) (data data' : APIKeyCreate.t)
    (token entropy uuid token' entropy' uuid' : string) (now now' : datetime)
    (created : APIKeyCreated.t) (ops : list op) :
  create_key settings db data token entropy uuid now = Ok (db', created) ->
  APIKeyCreate.client_id data' = APIKeyCreate.client_id data ->
  APIKeyCreate.name data' = APIKeyCreate.name data ->
  (encoded_length (generate_key token') <= 72 ->
   create_key settings (run settings ops db') data' token' entropy' uuid' now'
   = Raise IntegrityError)
  /\ (72 < encoded_length (generate_key token') ->
      create_key settings (run settings ops db') data' token' entropy' uuid' now'
      = Raise ValueError).
Proof.
  intros Hcreate Hc Hn.
  assert (Hlong : 72 < encoded_length (generate_key token') ->
                  create_key settings (run settings ops db') data' token'
                    entropy' uuid' now' = Raise ValueError).
  { intros Hgt. unfold create_key, hash_key, bcrypt_hashpw.
    apply Nat.ltb_lt in Hgt. now rewrite Hgt. }
  split; [|exact Hlong]. clear Hlong. intros Hle.
  apply create_key_row in Hcreate as (-> & _ & _).
  match goal with
  | |- context [db ++ [?k]] => set (row := k) in *
  end.
  assert (Htaken : exists x, In x (run settings ops (db ++ [row]))
                             /\ client_id x = APIKeyCreate.client_id data
                             /\ name x = APIKeyCreate.name data).
  { assert (Hstart : exists x, In x (db ++ [row])
                               /\ client_id x = APIKeyCreate.client_id data
                               /\ name x = APIKeyCreate.name data).
    { exists row. split; [apply in_or_app; right; now left|split; reflexivity]. }
    revert Hstart. generalize (db ++ [row]). clear.
    induction ops as [|o ops IH]; intros d Hd; simpl; [assumption|].
    apply IH. now apply name_taken_step. }
  destruct Htaken as (x & Hin & Hxc & Hxn).
  unfold create_key, hash_key, bcrypt_hashpw.
  apply Nat.ltb_ge in Hle. rewrite Hle. unfold insert.
  match goal with
  | |- context [existsb (conflicts ?k) ?d] =>
      assert (Hex : existsb (conflicts k) d = true)
  end.
  { apply existsb_exists. exists x. split; [assumption|].
    unfold conflicts. simpl. rewrite Hc, Hn, Hxc, Hxn, !String.eqb_refl.
    apply orb_true_r. }
  now rewrite Hex.
Qed.

End KeyStore.

(** * Administrative lookup and the revoke command *)

Section Administration.

Import Auth Cli.

Lemma like_any_suffix (p : list ascii) (x : ascii) (s : list ascii) :
  like ("%"%char :: p) s = true -> like ("%"%char :: p) (x :: s) = true.
Proof.
  intros H. simpl in *. rewrite H. apply orb_true_r.
Qed.

Lemma like_any_here (p s : list ascii) :
  like p s = true -> like ("%"%char :: p) s = true.
Proof.
  intros H. destruct s; simpl in *; now rewrite H.
Qed.

(** Wildcards only widen a search: what begins with the search string
    matches it. *)
Lemma startswith_of_prefix (other column : string) :
  escape_free other = true -> String.prefix other column = true ->
  startswith column other = true.
Proof.
  unfold startswith, escape_free. rewrite list_ascii_of_string_app.
  revert column. induction other as [|c other IH]; intros column Hfree Hpre.
  - simpl. apply like_percent.
  - destruct column as [|x column]; [discriminate|].
    simpl in Hfree, Hpre. apply andb_true_iff in Hfree as [Hc Hfree].
    apply negb_true_iff in Hc.
    destruct (ascii_dec c x) as [->|]; [|discriminate].
    specialize (IH column Hfree Hpre).
    change (list_ascii_of_string (String x other) ++ list_ascii_of_string "%")
      with (x :: (list_ascii_of_string other ++ list_ascii_of_string "%")).
    change (list_ascii_of_string (String x column))
      with (x :: list_ascii_of_string column).
    destruct (Ascii.eqb x "%") eqn:Hpct.
    + apply Ascii.eqb_eq in Hpct. subst x.
      apply like_any_suffix, like_any_here, IH.
    + simpl. rewrite Hpct. destruct (Ascii.eqb x "_"); [exact IH|].
      rewrite Hc, Ascii.eqb_refl. exact IH.
Qed.

(** A search of four characters or more never misses a stored key whose
    prefix begins with the search string (the string holding no backslash):
    it gives that very key, or raises because other keys match as well.
    Whatever it gives is a stored key that matches the search. *)
Theorem get_key_by_prefix_finds_what_begins_with_it
    (db : table) (prefix : string) (r : APIKey) :
  4 <= String.length prefix -> escape_free prefix = true ->
  In r db -> String.prefix prefix (key_prefix r) = true ->
  (get_key_by_prefix db prefix = Ok (Some r)
   \/ get_key_by_prefix db prefix = Raise MultipleResultsFound)
  /\ (forall r', get_key_by_prefix db prefix = Ok (Some r') ->
                 In r' db /\ startswith (key_prefix r') prefix = true).
Proof.
  intros Hlen Hfree Hin Hpre.
  rewrite (get_key_by_prefix_long_enough db prefix Hlen).
  assert (Hr : In r (filter (fun x => startswith (key_prefix x) prefix) db)).
  { apply filter_In. split; [assumption|]. now apply startswith_of_prefix. }
  destruct (filter (fun x => startswith (key_prefix x) prefix) db)
    as [|a [|b l]] eqn:E.
  - contradiction.
  - destruct Hr as [->|[]]. split; [now left|].
    intros r' H. injection H as <-.
    assert (Ha : In r (filter (fun x => startswith (key_prefix x) prefix) db))
      by (rewrite E; now left).
    now apply filter_In in Ha.
  - split; [now right|discriminate].
Qed.

(** The [revoke] command changes the table only when it reports a
    revocation, and then it has revoked an active stored key, with [--force]
    or after a yes; a key that is already revoked, a refusal, a missing key
    and a database error leave every row as it was; it never reports a
    failed revocation. *)
Theorem revoke_command_effect
    (db : table) (prefix : string) (force confirm : bool) (now : datetime) :
  match snd (_revoke db prefix force confirm now) with
  | Revoked n p =>
      exists key,
        In key db /\ is_active key = true /\ name key = n /\ key_prefix key = p
        /\ (force = true \/ confirm = true)
        /\ fst (_revoke db prefix force confirm now)
           = update_where_id (id key) (set_revoked now) db
  | RevokeFailed => False
  | NoKeyFound | AlreadyRevoked _ | Cancelled | DatabaseError _ =>
      fst (_revoke db prefix force confirm now) = db
  end.
Proof.
  unfold _revoke.
  destruct (get_key_by_prefix db prefix) as [by_prefix|e] eqn:Hp; [|reflexivity].
  set (found := match by_prefix with
                | Some key => Ok (Some key)
                | None => get_key_by_id db prefix
                end).
  assert (Hfound : forall key, found = Ok (Some key) -> In key db).
  { intros key. subst found. destruct by_prefix as [k|].
    - intros H. injection H as <-. unfold get_key_by_prefix in Hp.
      destruct (String.length prefix <? MIN_PREFIX_LENGTH)%nat; [discriminate|].
      destruct (filter (fun r => startswith (key_prefix r) prefix) db)
        as [|a [|b l]] eqn:E; try discriminate.
      injection Hp as <-.
      assert (Ha : In a (filter (fun r => startswith (key_prefix r) prefix) db))
        by (rewrite E; now left).
      now apply filter_In in Ha.
    - unfold get_key_by_id.
      destruct (filter (fun r => id r =? prefix) db) as [|a [|b l]] eqn:E;
        try discriminate.
      intros H. injection H as <-.
      assert (Ha : In a (filter (fun r => id r =? prefix) db))
        by (rewrite E; now left).
      now apply filter_In in Ha. }
  destruct found as [[key|]|e]; try reflexivity.
  specialize (Hfound key eq_refl).
  destruct (is_active key) eqn:Hact; simpl; [|reflexivity].
  destruct force, confirm; simpl; try reflexivity;
    (assert (Hrows : filter (fun r => id r =? id key) db <> [])
       by (intros Hnil;
           assert (Hk : In key (filter (fun r => id r =? id key) db))
             by (apply filter_In; split; [assumption|apply String.eqb_refl]);
           now rewrite Hnil in Hk);
     destruct (filter (fun r => id r =? id key) db); [contradiction|]; simpl;
     exists key; repeat split; auto).
Qed.

End Administration.

(** * More on the item service *)

Section ItemStore.

Import Items.

Lemma filter_item_id_absent (db : table) (item_id : string) :
  (forall r, In r db -> id r <> item_id) ->
  filter (fun r => id r =? item_id) db = [].
Proof.
  intros Hnone.
  destruct (filter (fun r => id r =? item_id) db) as [|x l] eqn:E; [reflexivity|].
  assert (Hx : In x (filter (fun r => id r =? item_id) db)) by (rewrite E; now left).
  apply filter_In in Hx as [Hx Heq]. apply String.eqb_eq in Heq.
  now destruct (Hnone x Hx).
Qed.

Lemma create_appends (db db' : table) (data : ItemCreate.t) (uuid : string)
    (db_now py_now : datetime) (item : Item) :
  create db data uuid db_now py_now = Ok (db', item) ->
  db' = db ++ [item]
  /\ item = {| id := uuid; name := ItemCreate.name data;
               description := ItemCreate.description data;
               created_at := db_now; updated_at := py_now |}
  /\ (forall r, In r db -> id r <> uuid).
Proof.
  unfold create. simpl.
  destruct (existsb (fun r => id r =? uuid) db) eqn:Hex; [discriminate|].
  intros H. injection H as <- <-. repeat split.
  intros r Hr Heq.
  assert (existsb (fun r => id r =? uuid) db = true).
  { apply existsb_exists. exists r. split; [assumption|]. now apply String.eqb_eq. }
  congruence.
Qed.

(** An item that [create] returns is read back by [get_by_id] under its id,
    with the name and description that were sent; the rows stored before
    stay, in their order. *)
Theorem create_then_get_by_id
    (db db' : table) (data : ItemCreate.t) (uuid : string)
    (db_now py_now : datetime) (item : Item) :
  create db data uuid db_now py_now = Ok (db', item) ->
  get_by_id db' (id item) = Ok (Some item)
  /\ name item = ItemCreate.name data
  /\ description item = ItemCreate.description data
  /\ db' = db ++ [item].
Proof.
  intros Hc. apply create_appends in Hc as (-> & -> & Hfresh).
  repeat split. unfold get_by_id. rewrite filter_app. simpl.
  rewrite String.eqb_refl. now rewrite (filter_item_id_absent db uuid Hfresh).
Qed.

(** [delete] reports whether a row had the id; afterwards no row has it and
    [get_by_id] gives [None]; the other rows stay, and when no row had the
    id the table is as it was. *)
Theorem delete_removes_exactly_the_id (db : table) (item_id : string) :
  (snd (delete db item_id) = true <-> exists r, In r db /\ id r = item_id)
  /\ get_by_id (fst (delete db item_id)) item_id = Ok None
  /\ (forall r, In r (fst (delete db item_id)) <-> In r db /\ id r <> item_id)
  /\ (snd (delete db item_id) = false -> fst (delete db item_id) = db).
Proof.
  unfold delete. simpl.
  assert (Hkeep : forall r, In r (filter (fun r => negb (id r =? item_id)) db)
                            <-> In r db /\ id r <> item_id).
  { intros r. rewrite filter_In, negb_true_iff, String.eqb_neq. tauto. }
  assert (Hcount : Nat.ltb 0 (List.length (filter (fun r => id r =? item_id) db)) = true
                   <-> exists r, In r db /\ id r = item_id).
  { rewrite Nat.ltb_lt. split.
    - destruct (filter (fun r => id r =? item_id) db) as [|r l] eqn:E; simpl; [lia|].
      intros _. exists r.
      assert (Hin : In r (filter (fun r => id r =? item_id) db)) by (rewrite E; now left).
      apply filter_In in Hin as [Hin Heq]. now apply String.eqb_eq in Heq.
    - intros (r & Hin & Hid).
      assert (Hf : In r (filter (fun r => id r =? item_id) db)).
      { apply filter_In. split; [assumption|]. now apply String.eqb_eq. }
      destruct (filter (fun r => id r =? item_id) db); [contradiction|simpl; lia]. }
  split; [exact Hcount|]. split; [|split; [exact Hkeep|]].
  - unfold get_by_id. rewrite filter_item_id_absent; [reflexivity|].
    intros r Hr. now apply Hkeep in Hr.
  - intros Hfalse.
    assert (Hnone : forall r, In r db -> id r <> item_id).
    { intros r Hin Heq.
      assert (Nat.ltb 0 (List.length (filter (fun r => id r =? item_id) db)) = true)
        by (apply Hcount; eauto).
      congruence. }
    clear Hkeep Hcount Hfalse. induction db as [|x db IH]; [reflexivity|]. simpl.
    assert (Hx : id x <> item_id) by (apply Hnone; now left).
    apply String.eqb_neq in Hx. rewrite Hx. simpl. f_equal.
    apply IH. intros r Hr. apply Hnone. now right.
Qed.

(** [update] on an id that no row has gives [None] and leaves the table as
    it was; so does an [update] that follows the [delete] of its id. *)
Theorem update_of_a_missing_item
    (db : table) (item_id : string) (data : ItemUpdate.t) (now : datetime) :
  ((forall r, In r db -> id r <> item_id) ->
   update db item_id data now = Ok (db, None))
  /\ update (fst (delete db item_id)) item_id data now
     = Ok (fst (delete db item_id), None).
Proof.
  assert (H : forall d, (forall r, In r d -> id r <> item_id) ->
                        update d item_id data now = Ok (d, None)).
  { intros d Hnone. unfold update, get_by_id.
    now rewrite (filter_item_id_absent d item_id Hnone). }
  split; [apply H|]. apply H. intros r Hr. unfold delete in Hr. simpl in Hr.
  apply filter_In in Hr as [_ Hr]. now apply negb_true_iff, String.eqb_neq in Hr.
Qed.

(** [get_all] counts the whole table whatever the page asked for; the page
    holds [min limit (total - skip)] stored items, newest first; a page from
    the start that is long enough holds every item. *)
Theorem get_all_pages (db : table) (skip limit : nat) :
  snd (get_all db skip limit) = List.length db
  /\ List.length (fst (get_all db skip limit))
     = Nat.min limit (List.length db - skip)
  /\ (forall r, In r (fst (get_all db skip limit)) -> In r db)
  /\ StronglySorted (newest_first created_at) (fst (get_all db skip limit))
  /\ (List.length db <= limit -> Permutation (fst (get_all db 0 limit)) db).
Proof.
  unfold get_all. simpl. repeat split.
  - rewrite offset_limit_length.
    now rewrite (Permutation_length (order_by_desc_perm created_at db)).
  - intros r Hr. apply offset_limit_In in Hr.
    now apply (Permutation_in _ (order_by_desc_perm created_at db)).
  - unfold offset_limit. apply firstn_sorted, skipn_sorted, order_by_desc_sorted.
  - intros Hlen. rewrite offset_limit_all; [apply order_by_desc_perm|].
    now rewrite (Permutation_length (order_by_desc_perm created_at db)).
Qed.

(** The primary key stays unique under [create], [update] and [delete]. *)
Theorem item_ids_stay_unique (db : table) :
  NoDup (map id db) ->
  (forall data uuid db_now py_now db' item,
     create db data uuid db_now py_now = Ok (db', item) -> NoDup (map id db'))
  /\ (forall item_id data now db' res,
        update db item_id data now = Ok (db', res) -> NoDup (map id db'))
  /\ (forall item_id, NoDup (map id (fst (delete db item_id)))).
Proof.
  intros Hnd. split; [|split].
  - intros data uuid db_now py_now db' item Hc.
    apply create_appends in Hc as (-> & -> & Hfresh).
    apply unique_column_snoc; [assumption|]. simpl.
    intros Hin. apply in_map_iff in Hin as (r & Heq & Hr). now apply (Hfresh r).
  - intros item_id data now db' res. unfold update, get_by_id.
    destruct (filter (fun r => id r =? item_id) db) as [|item [|b l]] eqn:E;
      simpl; try discriminate.
    + intros H. now injection H as <- _.
    + assert (Hitem : In item db).
      { assert (Hi : In item (filter (fun r => id r =? item_id) db))
          by (rewrite E; now left).
        now apply filter_In in Hi. }
      match goal with
      | |- context [flush_refresh db item ?n ?d now] =>
          destruct (flush_refresh db item n d now) as [[db1 item1]|e] eqn:Hf
      end; [|discriminate].
      intros H. injection H as <- _.
      apply flush_refresh_frame in Hf as (_ & _ & Hid & _ & _ & ->);
        try assumption.
      rewrite map_map.
      replace (map (fun x => id (if id x =? id item then item1 else x)) db)
        with (map id db); [assumption|].
      apply map_ext. intros r. destruct (id r =? id item) eqn:Er; [|reflexivity].
      apply String.eqb_eq in Er. congruence.
  - intros item_id. unfold delete. simpl.
    induction db as [|x db IH]; simpl; [constructor|].
    inversion Hnd as [|k ks Hx Hnd']; subst.
    destruct (id x =? item_id); simpl; [now apply IH|].
    constructor; [|now apply IH].
    intros Hin. apply Hx. apply in_map_iff in Hin as (r & Heq & Hr).
    apply filter_In in Hr as [Hr _]. rewrite <- Heq. now apply in_map.
Qed.

End ItemStore.

(** * Validated names *)

Section Validation.

Import Schemas.

Lemma rstrip_cons (c : ascii) (s : string) :
  rstrip (String c s)
  = match rstrip s with
    | EmptyString => if isspace c then EmptyString else String c EmptyString
    | String d t => String c (String d t)
    end.
Proof. reflexivity. Qed.

Lemma lstrip_length (s : string) : String.length (lstrip s) <= String.length s.
Proof.
  induction s as [|c s IH]; simpl; [lia|].
  destruct (isspace c); simpl; lia.
Qed.

Lemma rstrip_length (s : string) : String.length (rstrip s) <= String.length s.
Proof.
  induction s as [|c s IH]; [simpl; lia|]. rewrite rstrip_cons.
  destruct (rstrip s) as [|d t]; [destruct (isspace c)|]; simpl in *; lia.
Qed.

Lemma lstrip_head (s : string) :
  lstrip s = EmptyString
  \/ exists c t, lstrip s = String c t /\ isspace c = false.
Proof.
  induction s as [|c s IH]; simpl; [now left|].
  destruct (isspace c) eqn:Hc; [assumption|right]. now exists c, s.
Qed.

Lemma rstrip_keeps_head (c : ascii) (t : string) :
  isspace c = false -> exists t', rstrip (String c t) = String c t'.
Proof.
  intros Hc. rewrite rstrip_cons. destruct (rstrip t); [rewrite Hc|]; eauto.
Qed.

Lemma rstrip_idem (s : string) : rstrip (rstrip s) = rstrip s.
Proof.
  induction s as [|c s IH]; [reflexivity|]. rewrite rstrip_cons.
  destruct (rstrip s) as [|d t] eqn:E.
  - destruct (isspace c) eqn:Hc; [reflexivity|].
    rewrite rstrip_cons. simpl. now rewrite Hc.
  - rewrite rstrip_cons, IH. reflexivity.
Qed.

Lemma lstrip_fixed (c : ascii) (t : string) :
  isspace c = false -> lstrip (String c t) = String c t.
Proof. intros Hc. simpl. now rewrite Hc. Qed.

Lemma lstrip_empty_iff (s : string) :
  lstrip s = EmptyString <-> forallb isspace (list_ascii_of_string s) = true.
Proof.
  induction s as [|c s IH]; simpl; [tauto|].
  destruct (isspace c); simpl; [assumption|]. split; discriminate.
Qed.

Lemma strip_cases (v : string) :
  (strip v = EmptyString /\ forallb isspace (list_ascii_of_string v) = true)
  \/ (exists c t, strip v = String c t /\ isspace c = false
                  /\ forallb isspace (list_ascii_of_string v) = false).
Proof.
  unfold strip. destruct (lstrip_head v) as [He|(c & t & He & Hc)].
  - left. rewrite He. split; [reflexivity|]. now apply lstrip_empty_iff.
  - right. rewrite He. destruct (rstrip_keeps_head c t Hc) as (t' & Ht').
    exists c, t'. repeat split; try assumption.
    destruct (forallb isspace (list_ascii_of_string v)) eqn:E; [|reflexivity].
    apply lstrip_empty_iff in E. congruence.
Qed.

Lemma strip_fixed (v : string) :
  lstrip (strip v) = strip v /\ rstrip (strip v) = strip v.
Proof.
  split.
  - destruct (strip_cases v) as [[-> _]|(c & t & -> & Hc & _)];
      [reflexivity|now apply lstrip_fixed].
  - unfold strip. apply rstrip_idem.
Qed.

(** A name or client id that passes validation is the value sent without
    its leading and trailing whitespace: it holds between 1 and 255
    characters (so it fits the 255 wide column), neither strip changes it,
    and sent again it passes unchanged. *)
Theorem validated_name_is_trimmed (msg v s : string) :
  validate_required msg v = inl s ->
  s = strip v
  /\ 1 <= String.length s <= 255
  /\ lstrip s = s /\ rstrip s = s
  /\ validate_required msg s = inl s.
Proof.
  unfold validate_required, strip_whitespace.
  destruct (String.length v <? 1)%nat eqn:Hmin; [discriminate|].
  destruct (255 <? String.length v)%nat eqn:Hmax; [discriminate|].
  apply Nat.ltb_ge in Hmin, Hmax.
  destruct (strip v) as [|c t] eqn:Hs; [discriminate|].
  intros H. injection H as <-.
  assert (Hlen : String.length (String c t) <= String.length v).
  { rewrite <- Hs. unfold strip.
    pose proof (rstrip_length (lstrip v)). pose proof (lstrip_length v). lia. }
  destruct (strip_fixed v) as [Hl Hr]. rewrite Hs in Hl, Hr.
  assert (Hfix : strip (String c t) = String c t) by (unfold strip; now rewrite Hl).
  split; [reflexivity|]. split; [simpl in *; lia|]. split; [assumption|].
  split; [assumption|].
  assert (H1 : (String.length (String c t) <? 1)%nat = false)
    by (apply Nat.ltb_ge; simpl; lia).
  assert (H2 : (255 <? String.length (String c t))%nat = false)
    by (apply Nat.ltb_ge; lia).
  now rewrite H1, H2, Hfix.
Qed.

(** What validation refuses: the empty string as too short, more than 255
    characters as too long, measured before stripping, and within those
    bounds exactly the values made of whitespace only. *)
Theorem validate_required_refusals (msg v : string) (e : validation_error) :
  validate_required msg v = inr e <->
  (e = string_too_short /\ v = EmptyString)
  \/ (e = string_too_long /\ 255 < String.length v)
  \/ (e = value_error msg /\ 1 <= String.length v <= 255
      /\ forallb isspace (list_ascii_of_string v) = true).
Proof.
  unfold validate_required, strip_whitespace.
  destruct (String.length v <? 1)%nat eqn:Hmin.
  { apply Nat.ltb_lt in Hmin. destruct v as [|c v]; [|simpl in Hmin; lia]. split.
    - intros H. injection H as <-. now left.
    - intros [[-> _]|[[_ H]|[_ [H _]]]]; [reflexivity|simpl in H; lia..]. }
  apply Nat.ltb_ge in Hmin.
  destruct (255 <? String.length v)%nat eqn:Hmax.
  { apply Nat.ltb_lt in Hmax. split.
    - intros H. injection H as <-. right. now left.
    - intros [[_ ->]|[[-> _]|[_ [H _]]]]; [simpl in Hmin; lia|reflexivity|lia]. }
  apply Nat.ltb_ge in Hmax.
  destruct (strip_cases v) as [[Hs Hall]|(c & t & Hs & _ & Hall)]; rewrite Hs.
  - split.
    + intros H. injection H as <-. right. right. repeat split; assumption.
    + intros [[_ ->]|[[_ H]|[-> _]]]; [simpl in Hmin; lia|lia|reflexivity].
  - split; [discriminate|].
    intros [[_ ->]|[[_ H]|[_ [_ H]]]]; [simpl in Hmin; lia|lia|congruence].
Qed.

End Validation.

(** * The database URL and the correlation id *)

Section Plumbing.

Import Config Middleware.

(** [async_database_url] turns either PostgreSQL scheme into the psycopg one
    and keeps everything after the scheme; it leaves every other URL alone
    and applying it twice is applying it once. *)
Theorem async_database_url_selects_psycopg (url rest : string) :
  async_database_url ("postgresql://" ++ rest)
  = ("postgresql+psycopg://" ++ rest)%string
  /\ async_database_url ("postgres://" ++ rest)
     = ("postgresql+psycopg://" ++ rest)%string
  /\ async_database_url (async_database_url url) = async_database_url url.
Proof.
  assert (Hsub : substring 0 (String.length rest) rest = rest)
    by (apply substring_whole; lia).
  split; [|split].
  - unfold async_database_url, py_startswith. simpl.
    replace (String.prefix "" rest) with true by (now destruct rest).
    rewrite Nat.sub_0_r. now rewrite Hsub.
  - unfold async_database_url, py_startswith. simpl.
    replace (String.prefix "" rest) with true by (now destruct rest).
    rewrite Nat.sub_0_r. now rewrite Hsub.
  - assert (Hdone : forall x,
               async_database_url ("postgresql+psycopg://" ++ x)
               = ("postgresql+psycopg://" ++ x)%string) by reflexivity.
    remember (async_database_url url) as u eqn:Hu.
    unfold async_database_url in Hu.
    destruct (py_startswith url "postgresql://") eqn:H1; [subst u; apply Hdone|].
    destruct (py_startswith url "postgres://") eqn:H2; [subst u; apply Hdone|].
    subst u. unfold async_database_url. now rewrite H1, H2.
Qed.

Lemma span_id_run (body rest : string) :
  forallb id_char (list_ascii_of_string body) = true ->
  (rest = EmptyString \/ exists c t, rest = String c t /\ id_char c = false) ->
  span_id (body ++ rest) = (body, rest).
Proof.
  intros Hall Hrest. induction body as [|c body IH]; simpl in *.
  - destruct Hrest as [->|(c & t & -> & Hc)]; simpl; [reflexivity|now rewrite Hc].
  - apply andb_true_iff in Hall as [Hc Hall]. now rewrite Hc, IH.
Qed.

Lemma span_id_parts (s : string) :
  s = (fst (span_id s) ++ snd (span_id s))%string
  /\ forallb id_char (list_ascii_of_string (fst (span_id s))) = true.
Proof.
  induction s as [|c s [IH1 IH2]]; simpl; [split; reflexivity|].
  destruct (id_char c) eqn:Hc; [|split; reflexivity].
  destruct (span_id s) as [run rest]. simpl in *.
  split; [now rewrite <- IH1|now rewrite Hc].
Qed.

(** The correlation id of a request is the client's own when that is 1 to 64
    characters of [[a-zA-Z0-9_-]], also when one newline follows them, since
    [$] matches before a final newline; in every other case, an absent or
    empty header included, it is the freshly drawn uuid. *)
Theorem correlation_id_choice (client : option string) (uuid : string) :
  (forall body,
     1 <= String.length body <= 64 ->
     forallb id_char (list_ascii_of_string body) = true ->
     correlation_id (Some body) uuid = body
     /\ correlation_id (Some (body ++ String "010" "")%string) uuid
        = (body ++ String "010" "")%string)
  /\ (correlation_id client uuid = uuid
      \/ exists body,
           1 <= String.length body <= 64
           /\ forallb id_char (list_ascii_of_string body) = true
           /\ (client = Some body
               \/ client = Some (body ++ String "010" "")%string)
           /\ Some (correlation_id client uuid) = client).
Proof.
  split.
  - intros body [Hmin Hmax] Hall.
    assert (Hm : forall rest,
               rest = EmptyString \/ rest = String "010" "" ->
               correlation_id_matches (body ++ rest)%string = true).
    { intros rest Hrest. unfold correlation_id_matches.
      rewrite span_id_run; [|assumption|].
      - apply Nat.leb_le in Hmin, Hmax. rewrite Hmin, Hmax.
        now destruct Hrest as [->| ->].
      - destruct Hrest as [->| ->]; [now left|right].
        now exists "010"%char, EmptyString. }
    split.
    + pose proof (Hm EmptyString (or_introl eq_refl)) as H.
      assert (Hb : (body ++ "")%string = body)
        by (clear; induction body; simpl; congruence).
      rewrite Hb in H. unfold correlation_id.
      destruct body as [|c body]; [simpl in Hmin; lia|]. now rewrite H.
    + pose proof (Hm _ (or_intror eq_refl)) as H. unfold correlation_id.
      destruct (body ++ String "010" "")%string as [|c t] eqn:E;
        [destruct body; discriminate|]. now rewrite H.
  - unfold correlation_id. destruct client as [[|c s]|]; try now left.
    destruct (correlation_id_matches (String c s)) eqn:Hm; [right|now left].
    unfold correlation_id_matches in Hm.
    destruct (span_id_parts (String c s)) as [Hparts Hall].
    destruct (span_id (String c s)) as [run rest]. simpl in Hparts, Hall.
    apply andb_true_iff in Hm as [Hlen Hrest].
    apply andb_true_iff in Hlen as [Hmin Hmax].
    apply Nat.leb_le in Hmin, Hmax.
    exists run. repeat split; try assumption.
    apply orb_true_iff in Hrest as [Hr|Hr]; apply String.eqb_eq in Hr; subst rest.
    + left. rewrite Hparts. f_equal.
      clear. induction run; simpl; congruence.
    + right. now rewrite Hparts.
Qed.

End Plumbing.

(** * Runs on the sample data *)

Section SampleRuns.

Import Auth Sample.

#[local] Existing Instance plain_bcrypt.

Local Open Scope Z_scope.

Lemma ends_with_app (salt key : string) : ends_with (salt ++ key) key = true.
Proof.
  induction salt as [|c salt IH]; simpl.
  - destruct key; simpl; [reflexivity|]. now rewrite Ascii.eqb_refl, String.eqb_refl.
  - rewrite IH. apply orb_true_r.
Qed.

Lemma plain_bcrypt_sound : bcrypt_sound plain_bcrypt.
Proof. intros key salt. apply ends_with_app. Qed.

Lemma sample_constraints : constraints [row1; row2].
Proof.
  repeat split; repeat constructor; simpl; intuition discriminate.
Qed.

Example issue_sample : run default_settings issue [] = [row1; row2].
Proof. reflexivity. Qed.

Example sample_key_lengths :
  String.length key1 = 46%nat /\ get_key_prefix key1 = key_prefix row1
  /\ get_key_prefix key2 = key_prefix row2.
Proof. repeat split. Qed.

Example expired_sample_key_rejected :
  validate_key [row1; row2] key1 501 502 = Ok ([row1; row2], None).
Proof. reflexivity. Qed.

Example search_by_prefix_sample :
  get_key_by_prefix [row1; row2] "sk_" = Ok None
  /\ get_key_by_prefix [row1; row2] "sk_aK" = Ok (Some row1)
  /\ get_key_by_prefix [row1; row2] "sk_b" = Ok None.
Proof. repeat split. Qed.

(** C5, where the code departs from it: the two sample keys are stored as
    [create_key] issues them, the table meets the schema constraints, and a
    search for the four characters both prefixes begin with raises
    [MultipleResultsFound] instead of giving a record or [None]. *)
Theorem get_key_by_prefix_raises_on_shared_prefix :
  run default_settings issue [] = [row1; row2]
  /\ constraints [row1; row2]
  /\ get_key_by_prefix [row1; row2] "sk_a" = Raise MultipleResultsFound.
Proof.
  split; [reflexivity|]. split; [exact sample_constraints|reflexivity].
Qed.

(** C7 as first stated fails: a second [revoke_key] on the same id replaces
    the instant the first one stored. *)
Lemma second_revoke_rewrites_revoked_at :
  map revoked_at (run default_settings [RevokeKey uuid1 120] [row1])
  = [Some 120]
  /\ map revoked_at
       (run default_settings [RevokeKey uuid1 120; RevokeKey uuid1 130] [row1])
     = [Some 130].
Proof. split; reflexivity. Qed.

Lemma create_then_validate_same_id_witness :
  create_key default_settings [] data1 token1 "c2FsdDE" uuid1 100
  = Ok ([row1],
        {| APIKeyCreated.id := uuid1; APIKeyCreated.name := "ci";
           APIKeyCreated.client_id := "acme";
           APIKeyCreated.key_prefix := "sk_aK3x9QmT2";
           APIKeyCreated.key := key1;
           APIKeyCreated.expires_at := Some 500;
           APIKeyCreated.created_at := 100 |})
  /\ exists db'' r,
       validate_key [row1] key1 120 121 = Ok (db'', Some r)
       /\ id r = uuid1 /\ In r db''.
Proof.
  split; [reflexivity|].
  refine (create_then_validate_same_id default_settings [] [row1] data1 token1
            "c2FsdDE" uuid1 100 120 121 _ plain_bcrypt_sound eq_refl _).
  right. exists 500. split; reflexivity.
Defined.

Lemma revoked_key_is_rejected_witness :
  snd (revoke_key [row1; row2] uuid1 120) = true
  /\ let db' :=
       run default_settings
         [ValidateKey key1 130 131; CreateKey data1 token1 "c2FsdDE" uuid1 140]
         (fst (revoke_key [row1; row2] uuid1 120)) in
     validate_key db' key1 150 151 = Ok (db', None).
Proof.
  split; [reflexivity|].
  apply (revoked_key_is_rejected default_settings [row1; row2] row1 key1 120).
  - exact sample_constraints.
  - left. reflexivity.
  - split; reflexivity.
  - reflexivity.
Defined.

(** C3, where the code departs from it: two requests that both fail, each
    with a key of 76 characters, long enough for the length check.  The key
    that begins with the prefix of a stored active row makes
    [bcrypt.checkpw] raise [ValueError], which leaves [get_api_key]
    uncaught; the key that begins with no stored prefix gets the 401
    response.  The caller can tell the two apart. *)
Theorem overlong_key_tells_stored_prefix_apart :
  String.length overlong_on_stored_prefix = 76%nat
  /\ String.length overlong_on_unknown_prefix = 76%nat
  /\ get_api_key default_settings (Some overlong_on_stored_prefix)
       [row1; row2] 120 121
     = RaiseOther ValueError
  /\ get_api_key default_settings (Some overlong_on_unknown_prefix)
       [row1; row2] 120 121
     = RaiseHTTP {| status_code := 401; detail := "Invalid API key";
                    headers := [("WWW-Authenticate", "ApiKey")%string] |}.
Proof. repeat split. Qed.

Lemma validate_key_rejects_iff_expired_witness :
  validate_key [row1; row2] key1 500 501
  = Ok (update_where_id uuid1 (set_last_used_at 501) [row1; row2],
        Some (set_last_used_at 501 row1)).
Proof.
  destruct (validate_key_rejects_iff_expired [row1; row2] row1 key1 500 501)
    as (_ & Haccept & _ & Hsame).
  - exact sample_constraints.
  - left. reflexivity.
  - reflexivity.
  - split; reflexivity.
  - apply Haccept, Hsame. reflexivity.
Defined.

Lemma revoke_key_true_iff_stored_witness :
  snd (revoke_key (fst (revoke_key [row1; row2] uuid2 120)) uuid2 130) = true.
Proof.
  apply (revoke_key_true_iff_stored [row1; row2] uuid2 120 130). reflexivity.
Defined.

Lemma revoked_at_is_last_revocation_witness :
  exists r',
    nth_error
      (run default_settings
         [RevokeKey uuid1 120; ValidateKey key2 125 126; RevokeKey uuid1 130]
         [row1; row2]) 0
    = Some r'
    /\ id r' = uuid1 /\ revoked_at r' = Some 130.
Proof.
  apply (revoked_at_is_last_revocation default_settings
           [RevokeKey uuid1 120; ValidateKey key2 125 126; RevokeKey uuid1 130]
           [row1; row2] 0 row1).
  reflexivity.
Defined.

Lemma revocation_consistent_kept_witness :
  Forall revocation_consistent
    (run default_settings
       (issue ++ [RevokeKey uuid1 120; ValidateKey key2 130 131]) []).
Proof.
  apply revocation_consistent_kept. constructor.
Defined.

Lemma get_key_prefix_short_witness :
  (String.length "sk_short" < 12)%nat /\ get_key_prefix "sk_short" = "sk_short".
Proof.
  split; [simpl; lia|].
  apply (get_key_prefix_short "sk_short"). simpl. lia.
Defined.

End SampleRuns.

Lemma update_changes_only_name_and_description_witness :
  exists db' item',
    Items.update [Sample.widget] (Items.id Sample.widget) Sample.rename_widget 200%Z
    = Ok (db', Some item')
    /\ Items.name item' = "Widget2"
    /\ Items.description item' = Items.description Sample.widget
    /\ Items.id item' = Items.id Sample.widget
    /\ Items.created_at item' = Items.created_at Sample.widget.
Proof.
  assert (Hnd : NoDup (map Items.id [Sample.widget]))
    by (repeat constructor; simpl; tauto).
  assert (Hin : In Sample.widget [Sample.widget]) by (left; reflexivity).
  generalize (update_changes_only_name_and_description
                [Sample.widget] Sample.widget Sample.rename_widget 200%Z Hnd Hin).
  simpl. intros (Hid & Hcreated & _ & Hdescription & _).
  eexists _, _. split; [reflexivity|]. split; [reflexivity|].
  split; [apply Hdescription; reflexivity|]. split; assumption.
Defined.

(** * Further runs on the sample data *)

Section MoreSampleRuns.

Import Auth Sample.

#[local] Existing Instance plain_bcrypt.

Local Open Scope Z_scope.

Lemma validate_key_touches_only_last_used_at_witness :
  validate_key [row1; row2] key2 120 121
  = Ok (update_where_id uuid2 (set_last_used_at 121) [row1; row2],
        Some (set_last_used_at 121 row2))
  /\ nth_error (update_where_id uuid2 (set_last_used_at 121) [row1; row2]) 0
     = Some row1.
Proof.
  assert (Hv : validate_key [row1; row2] key2 120 121
               = Ok (update_where_id uuid2 (set_last_used_at 121) [row1; row2],
                     Some (set_last_used_at 121 row2))) by reflexivity.
  split; [exact Hv|].
  destruct (validate_key_touches_only_last_used_at _ _ _ _ _ _ Hv)
    as (_ & _ & _ & Hrows).
  destruct (Hrows 0%nat row1 eq_refl) as [H|[H _]]; [exact H|discriminate H].
Defined.

Lemma revoke_key_then_get_key_by_id_witness :
  get_key_by_id (fst (revoke_key [row1; row2] uuid1 120)) uuid1
  = Ok (Some (set_revoked 120 row1)).
Proof.
  apply (proj1 (revoke_key_then_get_key_by_id [row1; row2] uuid1 120
                  sample_constraints)).
  - left. reflexivity.
  - reflexivity.
Defined.

Lemma validate_key_again_witness :
  validate_key (update_where_id uuid2 (set_last_used_at 121) [row1; row2])
    key2 130 131
  = Ok (update_where_id uuid2 (set_last_used_at 131) [row1; row2],
        Some (set_last_used_at 131 (set_last_used_at 121 row2))).
Proof.
  apply (validate_key_again [row1; row2] _ key2 (set_last_used_at 121 row2)
           120 121 130 131).
  - exact sample_constraints.
  - reflexivity.
  - reflexivity.
Defined.

Lemma expired_key_stays_rejected_witness :
  let db := run default_settings
              [ValidateKey key1 400 401; RevokeKey uuid2 450] [row1; row2] in
  validate_key db key1 501 502 = Ok (db, None).
Proof.
  apply (expired_key_stays_rejected default_settings [row1; row2] row1 key1 500).
  - exact sample_constraints.
  - left. reflexivity.
  - reflexivity.
  - vm_compute. lia.
  - reflexivity.
  - reflexivity.
Defined.


Lemma create_key_stores_a_fresh_active_row_witness :
  exists row,
    get_key_by_id [row1; row2] uuid2 = Ok (Some row)
    /\ is_active row = true /\ revoked_at row = None
    /\ (String.length (key_prefix row) <= 12)%nat.
Proof.
  assert (Hc : create_key default_settings [row1] data2 token2 "c2FsdDI" uuid2 110
               = Ok ([row1; row2],
                     {| APIKeyCreated.id := uuid2; APIKeyCreated.name := "deploy";
                        APIKeyCreated.client_id := "acme";
                        APIKeyCreated.key_prefix := "sk_aP7m2LkD9";
                        APIKeyCreated.key := key2;
                        APIKeyCreated.expires_at := None;
                        APIKeyCreated.created_at := 110 |}))
    by (vm_compute; reflexivity).
  destruct (create_key_stores_a_fresh_active_row _ _ _ _ _ _ _ _ _ Hc)
    as (row & _ & Hget & _ & _ & _ & _ & Hact & _ & Hrev & _ & _ & _ & Hlen).
  exists row. repeat split; assumption.
Defined.

Lemma issued_key_authenticates_witness :
  exists db'' r,
    get_api_key default_settings (Some key2) [row1; row2] 120 121
    = Return (db'', r)
    /\ id r = uuid2 /\ last_used_at r = Some 121.
Proof.
  assert (Hc : create_key default_settings [row1] data2 token2 "c2FsdDI" uuid2 110
               = Ok ([row1; row2],
                     {| APIKeyCreated.id := uuid2; APIKeyCreated.name := "deploy";
                        APIKeyCreated.client_id := "acme";
                        APIKeyCreated.key_prefix := "sk_aP7m2LkD9";
                        APIKeyCreated.key := key2;
                        APIKeyCreated.expires_at := None;
                        APIKeyCreated.created_at := 110 |}))
    by (vm_compute; reflexivity).
  apply (proj1 (issued_key_authenticates default_settings _ _ _ _ _ _ _ 120 121 _
                  plain_bcrypt_sound Hc
                  ltac:(intros e H; discriminate H))).
  simpl. lia.
Defined.

Lemma issued_name_stays_taken_witness :
  create_key default_settings
    (run default_settings [RevokeKey uuid1 120] [row1])
    data1 token2 "c2FsdDI" uuid2 130
  = Raise IntegrityError.
Proof.
  assert (Hc : create_key default_settings [] data1 token1 "c2FsdDE" uuid1 100
               = Ok ([row1],
                     {| APIKeyCreated.id := uuid1; APIKeyCreated.name := "ci";
                        APIKeyCreated.client_id := "acme";
                        APIKeyCreated.key_prefix := "sk_aK3x9QmT2";
                        APIKeyCreated.key := key1;
                        APIKeyCreated.expires_at := Some 500;
                        APIKeyCreated.created_at := 100 |}))
    by (vm_compute; reflexivity).
  apply (proj1 (issued_name_stays_taken default_settings _ _ _ data1 _ _ _
                  token2 "c2FsdDI" uuid2 _ 130 _ [RevokeKey uuid1 120] Hc
                  eq_refl eq_refl)).
  vm_compute. lia.
Defined.

Lemma get_key_by_prefix_finds_what_begins_with_it_witness :
  get_key_by_prefix [row1; row2] "sk_aK" = Ok (Some row1)
  \/ get_key_by_prefix [row1; row2] "sk_aK" = Raise MultipleResultsFound.
Proof.
  apply (get_key_by_prefix_finds_what_begins_with_it [row1; row2] "sk_aK" row1).
  - simpl. lia.
  - reflexivity.
  - left. reflexivity.
  - reflexivity.
Defined.

End MoreSampleRuns.

Lemma create_then_get_by_id_witness :
  Items.get_by_id [Sample.widget] (Items.id Sample.widget) = Ok (Some Sample.widget)
  /\ Items.name Sample.widget = "Widget"
  /\ Items.description Sample.widget = Some "A thing"
  /\ [Sample.widget] = [] ++ [Sample.widget].
Proof.
  exact (create_then_get_by_id [] [Sample.widget]
           {| Items.ItemCreate.name := "Widget";
              Items.ItemCreate.description := Some "A thing" |}
           "0c9f6a1e-5d0b-4b7e-9a57-3f2f9b1c7d10" 100%Z 100%Z Sample.widget
           eq_refl).
Defined.

Lemma item_ids_stay_unique_witness :
  NoDup (map Items.id (fst (Items.delete [Sample.widget] (Items.id Sample.widget)))).
Proof.
  apply (item_ids_stay_unique [Sample.widget]).
  repeat constructor. simpl. tauto.
Defined.

Lemma validated_name_is_trimmed_witness :
  Schemas.validate_item_name "  Widget  " = inl "Widget"
  /\ Schemas.validate_item_name "Widget" = inl "Widget".
Proof.
  split; [reflexivity|].
  apply (validated_name_is_trimmed
           "Name cannot be empty or whitespace-only" "  Widget  " "Widget").
  reflexivity.
Defined.
